(** * LSB image steganography: the codec of [src/main.py]

    A shallow embedding of the static methods of [ImageSteganography]
    ([generate_data], [encrypt_image], [encode_message], [decode_message])
    and the properties of the codec they implement.

    Python values are modelled as follows.
    - an [int] is a [Z]; counters and coordinates that start at 0 and only
      grow ([x], [y], [width], [height], [len(text)]) are [nat];
    - a one-character [str] is its code point, a [N] ([ord] is the injection
      into [Z], [chr] its partial inverse); a text is the list of its
      characters;
    - the strings of binary digits built by [format(.., '08b')] and read by
      [int(.., 2)] are [string]s;
    - a pixel, a tuple of channel values, is a [list Z], so that the slices
      [pixel[:3]] and [pixel_set[3:6]] are [take] and [drop];
    - a PIL image is its size and its raster in row-major order; the raster
      is the one store that [getdata] reads and [putpixel] writes;
    - an exception is a value of [exn], carried by the [result] monad. *)

From Stdlib Require Import ZArith NArith Ascii String.
From Stdlib Require Import DecimalString DecimalZ DecimalPos.
From stdpp Require Import base list.

Local Open Scope Z_scope.

(** ** Exceptions and the error monad *)

(** [Exception(message)], and the built-in [IndexError] of a subscript or
    of [putpixel] out of range. *)
Inductive exn : Type :=
| Exception (message : string)
| IndexError.

Inductive result (A : Type) : Type :=
| Ok (a : A)
| Raise (e : exn).
Arguments Ok {A} a.
Arguments Raise {A} e.

Definition bind {A B : Type} (r : result A) (k : A -> result B) : result B :=
  match r with
  | Ok a => k a
  | Raise e => Raise e
  end.

Notation "x <- r ;; k" := (bind r (fun x => k))
  (at level 100, r at next level, right associativity,
   format "'[v' x  <-  r  ;;  '/' k ']'").

(** [for j in range(..): body], threading the value the body updates. *)
Fixpoint for_each {A S : Type} (xs : list A) (body : S -> A -> result S) (s : S)
  : result S :=
  match xs with
  | [] => Ok s
  | j :: xs' => s' <- body s j ;; for_each xs' body s'
  end.

(** ** The Python built-ins the codec uses *)

Abbreviation char := N.
Abbreviation str := (list N).

Definition ord (c : char) : Z := Z.of_N c.

(** [chr(n)]; [None] is its [ValueError], outside [range(0x110000)]. *)
Definition chr (n : Z) : option char :=
  if (0 <=? n) && (n <? 1114112) then Some (Z.to_N n) else None.

(** The binary digits of a positive number, most significant first, in
    front of [acc]. *)
Fixpoint bin_digits (p : positive) (acc : string) : string :=
  match p with
  | xH => String "1" acc
  | xO q => bin_digits q (String "0" acc)
  | xI q => bin_digits q (String "1" acc)
  end.

(** ['0' * k] and [s.rjust(w, '0')] *)
Fixpoint zeros (k : nat) : string :=
  match k with
  | O => EmptyString
  | S k' => String "0" (zeros k')
  end.

Definition zero_fill (w : nat) (s : string) : string :=
  zeros (w - String.length s) ++ s.

(** [format(n, '08b')]: binary digits, zero-padded to a width of at least
    8, the sign (if any) in front of the padding. *)
Definition format_08b (n : Z) : string :=
  match n with
  | Z0 => zero_fill 8 "0"
  | Zpos p => zero_fill 8 (bin_digits p "")
  | Zneg p => String "-" (zero_fill 7 (bin_digits p ""))
  end.

(** [str(n)] of an integer: its decimal digits. *)
Definition str_of_int (n : Z) : string := NilZero.string_of_int (Z.to_int n).

(** [int(s, 2)] on a string of binary digits; [None] is its [ValueError].
    The strings the decoder builds are made of [str(v % 2)], so the signs,
    blanks, underscores and prefix that [int] also accepts do not occur. *)
Fixpoint int2_digits (s : string) (acc : Z) : option Z :=
  match s with
  | EmptyString => Some acc
  | String c s' =>
      if Ascii.eqb c "0" then int2_digits s' (2 * acc)
      else if Ascii.eqb c "1" then int2_digits s' (2 * acc + 1)
      else None
  end.

Definition int2 (s : string) : option Z :=
  match s with
  | EmptyString => None
  | _ => int2_digits s 0
  end.

(** ** The bit-pixel codec (main.py, lines 43-49 and 130-132) *)

(** The body of the loop [for j in range(8)] of [generate_data], on the
    channel value [v = pixel_set[j]] and the digit
    [bit = data_in_binary[i][j]]. *)
Definition write_bit (v : Z) (bit : ascii) : Z :=
  if Ascii.eqb bit "1" then
    if v mod 2 =? 0 then v + (if v <? 255 then 1 else -1) else v
  else
    if v mod 2 =? 1 then v - (if 0 <? v then 1 else -1) else v.

(** [pixel_set[i] % 2] of [decode_message]. *)
Definition read_bit (v : Z) : Z := v mod 2.

(** ** Images *)

(** A pixel as [getdata] yields it and [putpixel] takes it. *)
Abbreviation pixel := (list Z).

(** An image of mode RGB, as [Image.open(..).convert('RGB')] returns it:
    [img.size] and the raster, pixel [(x, y)] at index [y * width + x]. *)
Record Image : Type := mkImage {
  width : nat;
  height : nat;
  im : list pixel
}.

(** [img.putpixel((x, y), value)]; out of the image PIL raises
    [IndexError]. *)
Definition putpixel (img : Image) (x y : nat) (value : pixel) : result Image :=
  if ((x <? width img) && (y <? height img))%nat then
    Ok (mkImage (width img) (height img)
                (<[(y * width img + x)%nat := value]> (im img)))
  else Raise IndexError.

(** ** The encoder *)

(** [data += chr(0)] and the first loop of [generate_data]. *)
Definition data_in_binary (data : str) : list string :=
  map (fun c => format_08b (ord c)) (data ++ [0%N]).

(** [for _ in range(3): pixel = next(image_data); pixel_set.extend(pixel[:3])].
    [image_data] iterates over [img.getdata()], which is the raster of the
    image itself and not a copy of it: it is read at position [pos] in the
    state [raster] it has when [next] is called. [None] is [StopIteration]. *)
Fixpoint next_pixels (n : nat) (raster : list pixel) (pos : nat)
    (pixel_set : list Z) : option (list Z) :=
  match n with
  | O => Some pixel_set
  | S n' =>
      match raster !! pos with
      | Some pixel => next_pixels n' raster (S pos) (pixel_set ++ take 3 pixel)
      | None => None
      end
  end.

(** The body of [for j in range(8)]: [pixel_set[j]] is rewritten according
    to [data_in_binary[i][j]]. *)
Definition modify_channel (binary_data : string) (pixel_set : list Z) (j : nat)
  : result (list Z) :=
  match String.get j binary_data, pixel_set !! j with
  | Some bit, Some v => Ok (<[j := write_bit v bit]> pixel_set)
  | _, _ => Raise IndexError
  end.

(** The state of the loop of [encrypt_image]: the image and the position
    [(x, y)] of the next write. *)
Record writer : Type := mkWriter {
  w_img : Image;
  w_x : nat;
  w_y : nat
}.

(** The body of the loop of [encrypt_image], run on one pixel that the
    generator yields. *)
Definition write_pixel (st : writer) (value : pixel) : result writer :=
  if (height (w_img st) <=? w_y st)%nat then
    Raise (Exception "Image is too small for this message!")
  else
    img <- putpixel (w_img st) (w_x st) (w_y st) value ;;
    let x := S (w_x st) in
    if (width img <=? x)%nat then Ok (mkWriter img 0 (S (w_y st)))
    else Ok (mkWriter img x (w_y st)).

(** [for pixel in generate_data(img.getdata(), data): ...], the generator
    and its consumer run in lock step: for each character the generator
    takes three pixels at its position [pos] in the raster, rewrites eight
    channels, and hands three pixels over, each written by [write_pixel]
    before the generator goes on. *)
Fixpoint encrypt_loop (binary : list string) (pos : nat) (st : writer)
  : result writer :=
  match binary with
  | [] => Ok st
  | binary_data :: binary' =>
      match next_pixels 3 (im (w_img st)) pos [] with
      | None => Raise (Exception "Image is too small to encode this message!")
      | Some pixel_set =>
          pixel_set <- for_each (seq 0 8) (modify_channel binary_data) pixel_set ;;
          st <- write_pixel st (take 3 pixel_set) ;;
          st <- write_pixel st (take 3 (drop 3 pixel_set)) ;;
          st <- write_pixel st (take 3 (drop 6 pixel_set)) ;;
          encrypt_loop binary' (pos + 3)%nat st
      end
  end.

(** [encrypt_image(img, data)]; the image it returns is [img] as the call
    leaves it. *)
Definition encrypt_image (img : Image) (data : str) : result Image :=
  st <- encrypt_loop (data_in_binary data) 0%nat (mkWriter img 0 0) ;;
  Ok (w_img st).

(** The message of the capacity failure, an f-string with a line feed after
    each of its first two sentences. *)
Definition too_small (min_pixels_needed total_pixels : nat) : string :=
  ("Image is too small!" ++ String "010" "Need at least "
   ++ str_of_int (Z.of_nat min_pixels_needed)
   ++ " pixels for this message." ++ String "010" "Image has "
   ++ str_of_int (Z.of_nat total_pixels) ++ " pixels.")%string.

(** The capacity check of [encode_message] (lines 90-95), on
    [image.size] and [len(text)]. *)
Definition check (width height len_text : nat) : result unit :=
  let min_pixels_needed := ((len_text + 1) * 3)%nat in
  let total_pixels := (width * height)%nat in
  if (total_pixels <? min_pixels_needed)%nat then
    Raise (Exception (too_small min_pixels_needed total_pixels))
  else Ok tt.

(** [encode_message], from the opened image to the image that is saved
    (lines 81-99 without the tests on the two paths, which are about the
    file system). *)
Definition encode_message (image : Image) (text : str) : result Image :=
  match text with
  | [] => Raise (Exception "Please fill in all fields!")
  | _ =>
      _ <- check (width image) (height image) (length text) ;;
      encrypt_image image text
  end.

(** ** The decoder *)

(** The body of [for i in range(8)]:
    [binary_string += str(pixel_set[i] % 2)]. *)
Definition append_bit (pixel_set : list Z) (binary_string : string) (i : nat)
  : result string :=
  match pixel_set !! i with
  | Some v => Ok (binary_string ++ str_of_int (read_bit v))%string
  | None => Raise IndexError
  end.

(** The loop [while True] of [decode_message] over the pixels still to be
    read. The two [break]s and the handler of [StopIteration] and
    [ValueError] all leave the loop with [data]; an [IndexError] is not
    handled. *)
Fixpoint decode_loop (image_data : list pixel) (data : str) : result str :=
  match image_data with
  | p1 :: p2 :: p3 :: image_data' =>
      let pixel_set := take 3 p1 ++ take 3 p2 ++ take 3 p3 in
      binary_string <- for_each (seq 0 8) (append_bit pixel_set) ""%string ;;
      match int2 binary_string with
      | None => Ok data
      | Some n =>
          match chr n with
          | None => Ok data
          | Some c =>
              if ord c =? 0 then Ok data
              else decode_loop image_data' (data ++ [c])
          end
      end
  | _ => Ok data
  end.

(** [decode_message], from the opened image (lines 117-149). *)
Definition decode_message (image : Image) : result str :=
  data <- decode_loop (im image) [] ;;
  match data with
  | [] => Raise (Exception "No hidden message found in this image!")
  | _ => Ok data
  end.

(** ** Vocabulary of the statements *)

(** The digit of a bit, a string of digits, and the number it denotes with
    the most significant bit first. *)
Definition bit_char (b : bool) : ascii := if b then "1"%char else "0"%char.

Fixpoint bits_string (bs : list bool) : string :=
  match bs with
  | [] => EmptyString
  | b :: bs' => String (bit_char b) (bits_string bs')
  end.

Definition bits_value (bs : list bool) (acc : Z) : Z :=
  fold_left (fun a b => 2 * a + Z.b2z b) bs acc.

(** The eight bits of a character code, most significant first. *)
Definition byte_bits (c : char) : list bool :=
  map (N.testbit c) [7; 6; 5; 4; 3; 2; 1; 0]%N.

(** The character codes of eight bits. *)
Definition bytes : list N := map N.of_nat (seq 0 256).

(** A decimal digit, and a string of decimal digits. *)
Definition is_digit (c : ascii) : bool :=
  (48 <=? N_of_ascii c)%N && (N_of_ascii c <=? 57)%N.

Fixpoint digits (s : string) : bool :=
  match s with
  | EmptyString => true
  | String c s' => is_digit c && digits s'
  end.

(** A pixel of an RGB image: three channels, each in [0, 255]. *)
Definition channel (v : Z) : Prop := 0 <= v <= 255.
Definition rgb (p : pixel) : Prop := length p = 3%nat /\ Forall channel p.

(** An RGB image: as many pixels in the raster as its size says. *)
Definition rgb_image (img : Image) : Prop :=
  length (im img) = (width img * height img)%nat /\ Forall rgb (im img).

(** The parities of the first eight channels of a group of pixels, and the
    character code they spell. *)
Definition lsbs (pixel_set : list Z) : list Z := map read_bit (take 8 pixel_set).

Definition lsb_code (pixel_set : list Z) : Z :=
  fold_left (fun a b => 2 * a + b) (lsbs pixel_set) 0.

(** The characters spelled by the successive complete groups of three
    pixels of a raster. *)
Fixpoint group_chars (raster : list pixel) : str :=
  match raster with
  | p1 :: p2 :: p3 :: raster' =>
      Z.to_N (lsb_code (p1 ++ p2 ++ p3)) :: group_chars raster'
  | _ => []
  end.

(** The characters in front of the first terminator, or all of them. *)
Fixpoint until_terminator (cs : str) : str :=
  match cs with
  | [] => []
  | c :: cs' => if (c =? 0)%N then [] else c :: until_terminator cs'
  end.

(** The characters that the scan of a raster accumulates. *)
Definition accumulated (raster : list pixel) : str :=
  until_terminator (group_chars raster).

(** The terminator is reached when some complete group spells code 0: the
    scan stops at the first such group. *)
Definition terminator_reached (raster : list pixel) : Prop :=
  In 0%N (group_chars raster).

(** The text of a string of one-byte characters, for the examples. *)
Definition text_of_string (s : string) : str :=
  map N_of_ascii (list_ascii_of_string s).

Definition no_message : exn := Exception "No hidden message found in this image!".

(** Images of one colour, for the examples. *)
Definition black : pixel := [0; 0; 0].
Definition white : pixel := [255; 255; 255].
Definition plain (W H : nat) (p : pixel) : Image := mkImage W H (repeat p (W * H)).

(** What the generator computes from the digits of one character and the
    nine channels of three pixels, and the raster that the encoder leaves,
    described group by group as a function of the raster it was given. *)
Fixpoint write_bits (n : nat) (binary_data : string) (pixel_set : list Z)
  : list Z :=
  match n, binary_data, pixel_set with
  | S n', String bit binary_data', v :: pixel_set' =>
      write_bit v bit :: write_bits n' binary_data' pixel_set'
  | _, _, _ => pixel_set
  end.

Definition embed_group (binary_data : string) (p1 p2 p3 : pixel) : list pixel :=
  let pixel_set := write_bits 8 binary_data (p1 ++ p2 ++ p3) in
  [take 3 pixel_set; take 3 (drop 3 pixel_set); take 3 (drop 6 pixel_set)].

Fixpoint embedded (binary : list string) (raster : list pixel) : list pixel :=
  match binary, raster with
  | binary_data :: binary', p1 :: p2 :: p3 :: raster' =>
      embed_group binary_data p1 p2 p3 ++ embedded binary' raster'
  | _, _ => raster
  end.

(** The eight leading bits of a character code: the code itself when it
    has at most eight bits. *)
Definition squash (c : char) : char := N.shiftr c (N.size c - 8).

(** The 3×2 white image with the one character of code 255 in it. *)
Definition white_255 : Image :=
  mkImage 3 2 [white; white; white;
               [254; 254; 254]; [254; 254; 254]; [254; 254; 255]].

(** ** The files: [encode_message] and [decode_message] on paths *)

(** [c.lower()] of a character below 256: the capital letters of ASCII and
    of Latin-1 (all of 192-222 but the sign 215) move up by 32. A character
    from 256 on is left as it is here; since no character from 128 on has
    one of the characters of ".png" in its lower case, the test
    [output_path.lower().endswith('.png')] is the same with either. *)
Definition lower_char (c : char) : char :=
  if ((65 <=? c) && (c <=? 90)
      || (192 <=? c) && (c <=? 222) && negb (c =? 215))%N
  then (c + 32)%N else c.

Definition lower (s : str) : str := map lower_char s.

(** [s.endswith(suffix)] *)
Definition endswith (s suffix : str) : bool :=
  bool_decide (drop (length s - length suffix) s = suffix).

Definition dot_png : str := text_of_string ".png".

(** The path that [encode_message] saves to and returns (lines 101-103). *)
Definition png_path (output_path : str) : str :=
  if endswith (lower output_path) dot_png then output_path
  else output_path ++ dot_png.

Section Files.
(** The file system and the three operations on it that the two functions
    call: [os.path.exists], [Image.open(..).convert('RGB')] and
    [image.save(.., 'PNG')]. *)
Variable FS : Type.
Variable path_exists : FS -> str -> bool.
Variable open_rgb : FS -> str -> result Image.
Variable save_png : FS -> str -> Image -> result FS.

(** [encode_message(img_path, text, output_path)] (lines 79-106): the path
    returned and the file system left. [image.copy()] is the image
    itself, as values here are not modified in place. *)
Definition encode_message_file (fs : FS) (img_path text output_path : str)
  : result (str * FS) :=
  match img_path, text, output_path with
  | _ :: _, _ :: _, _ :: _ =>
      if path_exists fs img_path then
        image <- open_rgb fs img_path ;;
        _ <- check (width image) (height image) (length text) ;;
        new_image <- encrypt_image image text ;;
        fs' <- save_png fs (png_path output_path) new_image ;;
        Ok (png_path output_path, fs')
      else Raise (Exception "Input image file not found!")
  | _, _, _ => Raise (Exception "Please fill in all fields!")
  end.

(** [decode_message(img_path)] (lines 108-149). *)
Definition decode_message_file (fs : FS) (img_path : str) : result str :=
  match img_path with
  | [] => Raise (Exception "Please select an image file!")
  | _ =>
      if path_exists fs img_path then
        image <- open_rgb fs img_path ;;
        decode_message image
      else Raise (Exception "Image file not found!")
  end.
End Files.

(** A file system in memory, for the examples: the images saved, the last
    one first. *)
Definition mem_lookup (fs : list (str * Image)) (path : str) : option Image :=
  snd <$> find (fun f => bool_decide (fst f = path)) fs.

Definition mem_exists (fs : list (str * Image)) (path : str) : bool :=
  bool_decide (is_Some (mem_lookup fs path)).

Definition mem_open (fs : list (str * Image)) (path : str) : result Image :=
  match mem_lookup fs path with
  | Some image => Ok image
  | None => Raise (Exception "cannot identify image file")
  end.

Definition mem_save (fs : list (str * Image)) (path : str) (image : Image)
  : result (list (str * Image)) :=
  Ok ((path, image) :: fs).

(** * Properties *)

(** ** The codec *)

Lemma read_bit_odd (v : Z) : read_bit v = Z.b2z (Z.odd v).
Proof. unfold read_bit. rewrite Zmod_odd. by destruct (Z.odd v). Qed.

Lemma write_bit_parity (v : Z) (b : bool) :
  read_bit (write_bit v (bit_char b)) = Z.b2z b.
Proof.
  unfold write_bit, read_bit.
  destruct b; simpl;
    repeat match goal with
           | |- context [?a =? ?b] => destruct (Z.eqb_spec a b)
           | |- context [?a <? ?b] => destruct (Z.ltb_spec a b)
           end;
    Z.div_mod_to_equations; lia.
Qed.

Lemma write_bit_near (v : Z) (bit : ascii) : Z.abs (write_bit v bit - v) <= 1.
Proof.
  unfold write_bit.
  repeat match goal with
         | |- context [if ?c then _ else _] => destruct c
         end; lia.
Qed.

Lemma write_bit_channel (v : Z) (bit : ascii) :
  channel v -> channel (write_bit v bit).
Proof.
  unfold channel, write_bit. intros Hv.
  repeat match goal with
         | |- context [?a =? ?b] => destruct (Z.eqb_spec a b)
         | |- context [?a <? ?b] => destruct (Z.ltb_spec a b)
         | |- context [if ?c then _ else _] => destruct c
         end; Z.div_mod_to_equations; lia.
Qed.

(** ** The built-ins on binary digits *)

Lemma str_of_int_read_bit (v : Z) :
  str_of_int (read_bit v) = String (bit_char (Z.odd v)) EmptyString.
Proof. rewrite read_bit_odd. by destruct (Z.odd v). Qed.

Lemma int2_digits_bits (bs : list bool) (acc : Z) :
  int2_digits (bits_string bs) acc = Some (bits_value bs acc).
Proof.
  revert acc. induction bs as [|b bs IH]; intros acc; [done|].
  destruct b; simpl; rewrite IH; unfold bits_value; simpl;
    do 2 f_equal; lia.
Qed.

Lemma int2_bits (b : bool) (bs : list bool) :
  int2 (bits_string (b :: bs)) = Some (bits_value (b :: bs) 0).
Proof. exact (int2_digits_bits (b :: bs) 0). Qed.

(** A property of bytes that a boolean function decides holds of all of
    them as soon as it holds of the 256 of them. *)
Lemma bytes_all (P : N -> bool) :
  forallb P bytes = true -> forall c, (c <= 255)%N -> P c = true.
Proof.
  intros HP c Hc. rewrite forallb_forall in HP. apply HP.
  unfold bytes. apply in_map_iff. exists (N.to_nat c). split; [lia|].
  apply in_seq. lia.
Qed.

Lemma format_08b_byte (c : char) :
  (c <= 255)%N -> format_08b (ord c) = bits_string (byte_bits c).
Proof.
  intros Hc. apply String.eqb_eq.
  revert c Hc.
  apply (bytes_all
           (fun c => String.eqb (format_08b (ord c)) (bits_string (byte_bits c)))).
  by vm_compute.
Qed.

Lemma byte_bits_value (c : char) :
  (c <= 255)%N -> bits_value (byte_bits c) 0 = ord c.
Proof.
  intros Hc. apply Z.eqb_eq.
  revert c Hc.
  apply (bytes_all (fun c => bits_value (byte_bits c) 0 =? ord c)).
  by vm_compute.
Qed.

Lemma length_append (s t : string) :
  String.length (s ++ t) = (String.length s + String.length t)%nat.
Proof. induction s as [|c s IH]; simpl; [done|]. by rewrite IH. Qed.

Lemma zero_fill_length (w : nat) (s : string) :
  String.length (zero_fill w s) = Nat.max w (String.length s).
Proof.
  unfold zero_fill. rewrite length_append.
  assert (forall k, String.length (zeros k) = k) as ->; [|lia].
  induction k as [|k IH]; simpl; congruence.
Qed.

(** [format(n, '08b')] has at least eight characters. *)
Lemma format_08b_length (n : Z) : (8 <= String.length (format_08b n))%nat.
Proof.
  destruct n as [|p|p]; unfold format_08b; cbn [String.length];
    rewrite zero_fill_length; lia.
Qed.

Lemma string_length_8 (s : string) :
  (8 <= String.length s)%nat ->
  exists c0 c1 c2 c3 c4 c5 c6 c7 s',
    s = String c0 (String c1 (String c2 (String c3
          (String c4 (String c5 (String c6 (String c7 s'))))))).
Proof.
  intros Hs. do 8 (destruct s as [|? s]; [simpl in Hs; lia|]).
  by repeat eexists.
Qed.

(** ** One group of the encoder *)

Lemma rgb_inv (p : pixel) :
  rgb p -> exists r g b, p = [r; g; b] /\ channel r /\ channel g /\ channel b.
Proof.
  intros [Hlen Hch]. destruct p as [|r [|g [|b [|? ?]]]]; try discriminate.
  exists r, g, b. repeat (apply Forall_cons in Hch as [? Hch]). done.
Qed.

Lemma rgb_intro (r g b : Z) : channel r -> channel g -> channel b -> rgb [r; g; b].
Proof. intros. split; [done|]. repeat apply Forall_cons_2; auto. Qed.

(** The loop [for j in range(8)] rewrites the first eight of the nine
    channels, each by [write_bit] with its digit. *)
Lemma modify_pixel_set (c0 c1 c2 c3 c4 c5 c6 c7 : ascii) (s : string)
    (a0 a1 a2 a3 a4 a5 a6 a7 a8 : Z) :
  for_each (seq 0 8)
    (modify_channel
       (String c0 (String c1 (String c2 (String c3
          (String c4 (String c5 (String c6 (String c7 s)))))))))
    [a0; a1; a2; a3; a4; a5; a6; a7; a8]
  = Ok [write_bit a0 c0; write_bit a1 c1; write_bit a2 c2; write_bit a3 c3;
        write_bit a4 c4; write_bit a5 c5; write_bit a6 c6; write_bit a7 c7; a8].
Proof. reflexivity. Qed.

Lemma lookup_app_plus {A : Type} (l1 l2 : list A) (i : nat) :
  (l1 ++ l2) !! (length l1 + i)%nat = l2 !! i.
Proof. induction l1 as [|a l1 IH]; [done|]. exact IH. Qed.

Lemma next_pixels_middle (front : list pixel) (p1 p2 p3 : pixel) (rest : list pixel) :
  next_pixels 3 (front ++ p1 :: p2 :: p3 :: rest) (length front) []
  = Some (take 3 p1 ++ take 3 p2 ++ take 3 p3).
Proof.
  cbn [next_pixels].
  replace (length front) with (length front + 0)%nat at 1 by lia.
  replace (S (length front)) with (length front + 1)%nat by lia.
  replace (S (length front + 1)) with (length front + 2)%nat by lia.
  rewrite !lookup_app_plus. cbn. by rewrite <- app_assoc.
Qed.

(** The generator stops with [StopIteration] exactly when fewer than three
    pixels are left at its position. *)
Lemma next_pixels_short (raster : list pixel) (pos : nat) :
  (length raster < pos + 3)%nat -> next_pixels 3 raster pos [] = None.
Proof.
  intros Hlen. cbn [next_pixels].
  destruct (raster !! pos) eqn:E0; [|done].
  destruct (raster !! S pos) eqn:E1; [|done].
  destruct (raster !! S (S pos)) eqn:E2; [|done].
  apply lookup_lt_Some in E2. exfalso. lia.
Qed.

(** One run of the body of the loop of [encrypt_image] inside the image. *)
Lemma write_pixel_inside (W H : nat) (raster : list pixel) (x y : nat) (v : pixel) :
  (x < W)%nat -> (y * W + x < W * H)%nat ->
  exists x' y',
    write_pixel (mkWriter (mkImage W H raster) x y) v
    = Ok (mkWriter (mkImage W H (<[(y * W + x)%nat := v]> raster)) x' y')
    /\ (x' < W)%nat /\ (y' * W + x' = S (y * W + x))%nat.
Proof.
  intros Hx Hpos. assert (y < H)%nat as Hy by nia.
  unfold write_pixel, putpixel. cbn [w_img w_x w_y width height im].
  destruct (Nat.leb_spec H y) as [?|_]; [lia|].
  destruct (Nat.ltb_spec x W) as [_|?]; [|lia].
  destruct (Nat.ltb_spec y H) as [_|?]; [|lia].
  cbn [andb bind width].
  destruct (Nat.leb_spec W (S x)).
  - exists 0%nat, (S y). split; [done|]. split; lia.
  - exists (S x), y. split; [done|]. split; lia.
Qed.

(** What the generator does with one character and the three pixels it
    takes: no subscript is out of range, the three pixels it yields are
    pixels of an RGB image again, and for a character code of eight bits
    their parities spell that code. *)
Lemma encode_group (c : char) (p1 p2 p3 : pixel) :
  rgb p1 -> rgb p2 -> rgb p3 ->
  exists pixel_set,
    for_each (seq 0 8) (modify_channel (format_08b (ord c)))
             (take 3 p1 ++ take 3 p2 ++ take 3 p3) = Ok pixel_set
    /\ rgb (take 3 pixel_set)
    /\ rgb (take 3 (drop 3 pixel_set))
    /\ rgb (take 3 (drop 6 pixel_set))
    /\ ((c <= 255)%N ->
        lsb_code (take 3 pixel_set ++ take 3 (drop 3 pixel_set)
                  ++ take 3 (drop 6 pixel_set)) = ord c).
Proof.
  intros (a0 & a1 & a2 & -> & ? & ? & ?)%rgb_inv
         (a3 & a4 & a5 & -> & ? & ? & ?)%rgb_inv
         (a6 & a7 & a8 & -> & ? & ? & ?)%rgb_inv.
  destruct (string_length_8 _ (format_08b_length (ord c)))
    as (c0 & c1 & c2 & c3 & c4 & c5 & c6 & c7 & s & Hs).
  rewrite Hs. cbn [take app]. rewrite modify_pixel_set.
  eexists. split; [reflexivity|]. cbn [take drop].
  repeat split; try (apply rgb_intro; auto using write_bit_channel).
  intros Hc. rewrite (format_08b_byte c Hc) in Hs.
  cbn in Hs. injection Hs as <- <- <- <- <- <- <- <- _.
  rewrite <- (byte_bits_value c Hc).
  unfold lsb_code, lsbs. cbn [app take map fold_left].
  rewrite !write_bit_parity. reflexivity.
Qed.

(** ** The loop of the encoder *)

(** A write at the position that follows the pixels already written. *)
Lemma write_pixel_next (W H : nat) (front : list pixel) (p : pixel)
    (rest : list pixel) (x y : nat) (v : pixel) :
  (x < W)%nat -> length front = (y * W + x)%nat ->
  length (front ++ p :: rest) = (W * H)%nat ->
  exists x' y',
    write_pixel (mkWriter (mkImage W H (front ++ p :: rest)) x y) v
    = Ok (mkWriter (mkImage W H ((front ++ [v]) ++ rest)) x' y')
    /\ (x' < W)%nat /\ length (front ++ [v]) = (y' * W + x')%nat.
Proof.
  intros Hx Hdone Hlen. rewrite length_app in Hlen. cbn [length] in Hlen.
  destruct (write_pixel_inside W H (front ++ p :: rest) x y v Hx ltac:(lia))
    as (x' & y' & Hw & Hx' & Hpos).
  exists x', y'. rewrite Hw, <- Hdone.
  replace (length front) with (length front + 0)%nat at 1 by lia.
  rewrite insert_app_r, <- app_assoc. cbn.
  repeat split; [done|]. rewrite length_app. cbn [length]. lia.
Qed.

(** The invariant of the loop: the generator reads at the position of the
    next write, in front of which the raster holds what has been written
    and from which on it is still as it was. From such a state the loop
    runs to its end without an exception; it has rewritten three pixels for
    each character and nothing behind them. *)
Lemma encrypt_loop_spec (W H : nat) (cs : str) :
  forall (front todo : list pixel) (x y : nat),
    (x < W)%nat -> length front = (y * W + x)%nat ->
    length (front ++ todo) = (W * H)%nat ->
    Forall rgb todo -> (3 * length cs <= length todo)%nat ->
    exists enc x' y',
      encrypt_loop (map (fun c => format_08b (ord c)) cs) (length front)
                   (mkWriter (mkImage W H (front ++ todo)) x y)
      = Ok (mkWriter
              (mkImage W H (front ++ enc ++ drop (3 * length cs) todo)) x' y')
      /\ length enc = (3 * length cs)%nat
      /\ Forall rgb enc
      /\ (Forall (fun c => (c <= 255)%N) cs -> group_chars enc = cs).
Proof.
  induction cs as [|c cs IH]; intros front todo x y Hx Hdone Hlen Hrgb Hcap.
  { exists [], x, y. cbn. rewrite drop_0. by repeat split. }
  cbn [length] in Hcap.
  destruct todo as [|p1 [|p2 [|p3 rest]]]; cbn [length] in Hcap; try lia.
  apply Forall_cons in Hrgb as [Hp1 Hrgb].
  apply Forall_cons in Hrgb as [Hp2 Hrgb].
  apply Forall_cons in Hrgb as [Hp3 Hrgb].
  destruct (encode_group c p1 p2 p3 Hp1 Hp2 Hp3)
    as (ps & Hps & Hq1 & Hq2 & Hq3 & Hcode).
  set (q1 := take 3 ps) in *.
  set (q2 := take 3 (drop 3 ps)) in *.
  set (q3 := take 3 (drop 6 ps)) in *.
  cbn [map encrypt_loop w_img im].
  rewrite next_pixels_middle, Hps. cbn [bind]. fold q1 q2 q3.
  destruct (write_pixel_next W H front p1 (p2 :: p3 :: rest) x y q1 Hx Hdone Hlen)
    as (x1 & y1 & -> & Hx1 & Hdone1).
  cbn [bind].
  assert (length ((front ++ [q1]) ++ p2 :: p3 :: rest) = (W * H)%nat) as Hlen1.
  { rewrite <- Hlen, !length_app. cbn. lia. }
  destruct (write_pixel_next W H _ p2 (p3 :: rest) x1 y1 q2 Hx1 Hdone1 Hlen1)
    as (x2 & y2 & -> & Hx2 & Hdone2).
  cbn [bind].
  assert (length (((front ++ [q1]) ++ [q2]) ++ p3 :: rest) = (W * H)%nat) as Hlen2.
  { rewrite <- Hlen, !length_app. cbn. lia. }
  destruct (write_pixel_next W H _ p3 rest x2 y2 q3 Hx2 Hdone2 Hlen2)
    as (x3 & y3 & -> & Hx3 & Hdone3).
  cbn [bind].
  assert (length ((((front ++ [q1]) ++ [q2]) ++ [q3]) ++ rest) = (W * H)%nat)
    as Hlen3.
  { rewrite <- Hlen, !length_app. cbn. lia. }
  destruct (IH _ rest x3 y3 Hx3 Hdone3 Hlen3 Hrgb ltac:(lia))
    as (enc & x' & y' & Hloop & Henc & Hrgb' & Hchars).
  replace (length front + 3)%nat
    with (length (((front ++ [q1]) ++ [q2]) ++ [q3]))
    by (rewrite !length_app; cbn; lia).
  rewrite Hloop.
  exists (q1 :: q2 :: q3 :: enc), x', y'. split; [|split; [|split]].
  - cbn [length].
    replace (3 * S (length cs))%nat with (S (S (S (3 * length cs)))) by lia.
    cbn [drop]. rewrite <- !app_assoc. reflexivity.
  - cbn [length]. lia.
  - auto using Forall_cons_2.
  - intros [Hc Hcs]%Forall_cons. cbn [group_chars].
    rewrite (Hcode Hc), (Hchars Hcs). unfold ord. by rewrite N2Z.id.
Qed.

(** [encrypt_image] on an RGB image with room for the text and its
    terminator: the call returns, the size is kept, the first
    [3 * (len(data) + 1)] pixels are rewritten and the rest is as it was. *)
Lemma encrypt_image_spec (img : Image) (data : str) :
  rgb_image img -> (3 * (length data + 1) <= length (im img))%nat ->
  exists enc,
    encrypt_image img data
    = Ok (mkImage (width img) (height img)
                  (enc ++ drop (3 * (length data + 1)) (im img)))
    /\ length enc = (3 * (length data + 1))%nat
    /\ Forall rgb enc
    /\ (Forall (fun c => (c <= 255)%N) data -> group_chars enc = data ++ [0%N]).
Proof.
  destruct img as [W H raster]. cbn [width height im].
  intros [Hlen Hrgb] Hcap. cbn [width height im] in Hlen, Hrgb.
  assert (0 < W)%nat as HW by nia.
  destruct (encrypt_loop_spec W H (data ++ [0%N]) [] raster 0 0 HW)
    as (enc & x' & y' & Hloop & Henc & Hrgb' & Hchars);
    rewrite ?length_app; cbn [length app]; try done; try lia.
  rewrite length_app in Hloop, Henc. cbn [length app] in Hloop, Henc.
  exists enc. unfold encrypt_image, data_in_binary. rewrite Hloop. cbn.
  repeat split; try done.
  intros Hdata. apply Hchars. apply Forall_app. split; [done|].
  by apply Forall_singleton.
Qed.

(** ** The decoder *)

(** Induction on a list by steps of three elements. *)
Lemma list_ind3 {A : Type} (P : list A -> Prop) :
  P [] -> (forall a, P [a]) -> (forall a b, P [a; b]) ->
  (forall a b c l, P l -> P (a :: b :: c :: l)) ->
  forall l, P l.
Proof.
  intros H0 H1 H2 H3 l.
  assert (P l /\ (forall a, P (a :: l)) /\ (forall a b, P (a :: b :: l))) as [? _];
    [|done].
  induction l as [|x l (IH0 & IH1 & IH2)]; [by auto|].
  split; [apply IH1|]. split; [intros; apply IH2|]. intros. by apply H3.
Qed.

Lemma bits_value_byte (b0 b1 b2 b3 b4 b5 b6 b7 : bool) :
  0 <= bits_value [b0; b1; b2; b3; b4; b5; b6; b7] 0 < 256.
Proof.
  unfold bits_value. cbn [fold_left].
  destruct b0, b1, b2, b3, b4, b5, b6, b7; cbn; lia.
Qed.

(** What the decoder reads from a group of three pixels: no subscript is
    out of range, [int] does not fail and yields a code of eight bits. *)
Lemma decode_group (p1 p2 p3 : pixel) :
  rgb p1 -> rgb p2 -> rgb p3 ->
  exists binary_string,
    for_each (seq 0 8) (append_bit (take 3 p1 ++ take 3 p2 ++ take 3 p3))
             EmptyString = Ok binary_string
    /\ int2 binary_string = Some (lsb_code (p1 ++ p2 ++ p3))
    /\ 0 <= lsb_code (p1 ++ p2 ++ p3) < 256.
Proof.
  intros (a0 & a1 & a2 & -> & _)%rgb_inv (a3 & a4 & a5 & -> & _)%rgb_inv
         (a6 & a7 & a8 & -> & _)%rgb_inv.
  eexists. split; [reflexivity|].
  rewrite !str_of_int_read_bit. cbn [append].
  unfold lsb_code, lsbs. cbn [app take map]. rewrite !read_bit_odd.
  split; [apply (int2_bits _ [_; _; _; _; _; _; _])|].
  apply bits_value_byte.
Qed.

Lemma chr_byte (n : Z) : 0 <= n < 256 -> chr n = Some (Z.to_N n).
Proof.
  intros Hn. unfold chr.
  destruct (Z.leb_spec 0 n); [|lia]. destruct (Z.ltb_spec n 1114112); [done|lia].
Qed.

(** The loop of the decoder appends to [data] the characters of the
    complete groups, up to the first terminator. *)
Lemma decode_loop_spec (raster : list pixel) :
  Forall rgb raster ->
  forall data,
    decode_loop raster data = Ok (data ++ until_terminator (group_chars raster)).
Proof.
  induction raster as [| | |p1 p2 p3 raster IH] using list_ind3;
    intros Hrgb data; try (cbn; by rewrite app_nil_r).
  apply Forall_cons in Hrgb as [Hp1 Hrgb].
  apply Forall_cons in Hrgb as [Hp2 Hrgb].
  apply Forall_cons in Hrgb as [Hp3 Hrgb].
  destruct (decode_group p1 p2 p3 Hp1 Hp2 Hp3) as (s & Hs & Hint & Hcode).
  cbn [decode_loop group_chars until_terminator].
  rewrite Hs. cbn [bind]. rewrite Hint, (chr_byte _ Hcode).
  unfold ord. rewrite Z2N.id by lia.
  destruct (Z.eqb_spec (lsb_code (p1 ++ p2 ++ p3)) 0) as [E|E].
  - rewrite E. cbn. by rewrite app_nil_r.
  - destruct (N.eqb_spec (Z.to_N (lsb_code (p1 ++ p2 ++ p3))) 0) as [E'|_];
      [lia|].
    rewrite (IH Hrgb). by rewrite <- app_assoc.
Qed.

Lemma decode_message_spec (image : Image) :
  Forall rgb (im image) ->
  decode_message image
  = match until_terminator (group_chars (im image)) with
    | [] => Raise (Exception "No hidden message found in this image!")
    | data => Ok data
    end.
Proof.
  intros Hrgb. unfold decode_message.
  rewrite (decode_loop_spec _ Hrgb). cbn [bind app].
  by destruct (until_terminator (group_chars (im image))).
Qed.

(** ** Decoding what the encoder wrote *)

Lemma group_chars_app (cs : str) :
  forall enc tail : list pixel,
    length enc = (3 * length cs)%nat ->
    group_chars (enc ++ tail) = group_chars enc ++ group_chars tail.
Proof.
  induction cs as [|c cs IH]; intros enc tail Hlen; cbn [length] in Hlen.
  { destruct enc; [done|]. cbn in Hlen. lia. }
  destruct enc as [|q1 [|q2 [|q3 enc]]]; cbn [length] in Hlen; try lia.
  cbn [app group_chars]. rewrite IH by lia. done.
Qed.

Lemma until_terminator_message (M rest : str) :
  Forall (fun c => c <> 0%N) M ->
  until_terminator ((M ++ [0%N]) ++ rest) = M.
Proof.
  induction 1 as [|c M Hc _ IH]; [done|].
  cbn. destruct (N.eqb_spec c 0); [done|]. by f_equal.
Qed.

Lemma until_terminator_none (cs : str) :
  ~ In 0%N cs -> until_terminator cs = cs.
Proof.
  induction cs as [|c cs IH]; [done|]. intros Hin. cbn.
  destruct (N.eqb_spec c 0) as [->|_]; [destruct Hin; by left|].
  f_equal. apply IH. intros ?. apply Hin. by right.
Qed.

Lemma encrypt_image_rgb (img img' : Image) (data : str) :
  rgb_image img -> (3 * (length data + 1) <= length (im img))%nat ->
  encrypt_image img data = Ok img' -> rgb_image img'.
Proof.
  intros Himg Hcap Henc.
  destruct (encrypt_image_spec img data Himg Hcap) as (enc & E & Hlen & Hrgb & _).
  rewrite E in Henc. injection Henc as <-. destruct Himg as [Hsize Hpix].
  split; cbn [im width height].
  - rewrite length_app, length_drop, Hlen. lia.
  - apply Forall_app. split; [done|]. by apply Forall_drop.
Qed.

(** The text that the decoder returns from the image that the encoder
    leaves: the text encoded, unless it is empty. *)
Lemma decode_encrypted (img : Image) (M : str) :
  rgb_image img ->
  Forall (fun c => (c <= 255)%N) M -> Forall (fun c => c <> 0%N) M ->
  (3 * (length M + 1) <= length (im img))%nat ->
  exists img',
    encrypt_image img M = Ok img'
    /\ decode_message img'
       = match M with
         | [] => Raise (Exception "No hidden message found in this image!")
         | _ => Ok M
         end.
Proof.
  intros Himg Hbyte Hnul Hcap.
  destruct (encrypt_image_spec img M Himg Hcap) as (enc & E & Hlen & Hrgb & Hchars).
  eexists. split; [exact E|].
  pose proof (encrypt_image_rgb _ _ _ Himg Hcap E) as [_ Hrgb'].
  rewrite (decode_message_spec _ Hrgb'). cbn [im].
  rewrite (group_chars_app (M ++ [0%N])), (Hchars Hbyte)
    by (rewrite length_app; cbn; lia).
  rewrite until_terminator_message by done. by destruct M.
Qed.

(** ** The capacity check and its message *)

Lemma str_of_int_inj (a b : Z) : str_of_int a = str_of_int b -> a = b.
Proof.
  unfold str_of_int. intros E.
  assert (forall z, Z.to_int z <> Decimal.Pos Decimal.Nil
                    /\ Z.to_int z <> Decimal.Neg Decimal.Nil) as Hnil.
  { intros [|p|p]; split; try discriminate;
      intros [= Hp]; by apply (Unsigned.to_uint_nonnil p). }
  apply (f_equal NilZero.int_of_string) in E.
  rewrite !NilZero.isi in E by apply Hnil.
  injection E as E. apply (f_equal Z.of_int) in E.
  by rewrite !DecimalZ.of_to in E.
Qed.

Lemma str_of_nat_digits (n : nat) : digits (str_of_int (Z.of_nat n)) = true.
Proof.
  assert (forall d, digits (NilEmpty.string_of_uint d) = true) as Hd
    by (induction d; done).
  unfold str_of_int.
  destruct (Z.of_nat n) as [|p|p] eqn:E; [done| |lia].
  cbn. unfold NilZero.string_of_uint. destruct (Pos.to_uint p); done.
Qed.

Lemma append_inj (s t t' : string) : (s ++ t = s ++ t')%string -> t = t'.
Proof. induction s as [|c s IH]; [done|]. intros [= E]. auto. Qed.

(** Two strings of digits in front of a blank are equal when the whole
    strings are. *)
Lemma digits_blank_inj (d d' r r' : string) :
  digits d = true -> digits d' = true ->
  (d ++ String " " r = d' ++ String " " r')%string -> d = d' /\ r = r'.
Proof.
  revert d'. induction d as [|c d IH]; intros [|c' d']; cbn.
  - by intros _ _ [= ->].
  - intros _ [Hc _]%andb_prop [= <- _]. discriminate.
  - intros [Hc _]%andb_prop _ [= -> _]. discriminate.
  - intros [_ Hd]%andb_prop [_ Hd']%andb_prop [= -> E].
    destruct (IH d' Hd Hd' E) as [-> ->]. done.
Qed.

(** The message of the capacity failure tells both numbers. *)
Lemma too_small_inj (needed available needed' available' : nat) :
  too_small needed available = too_small needed' available' ->
  needed = needed' /\ available = available'.
Proof.
  unfold too_small. intros E.
  do 2 apply append_inj in E.
  apply (digits_blank_inj _ _ _ _ (str_of_nat_digits _) (str_of_nat_digits _)) in E
    as [En E].
  repeat injection E as E.
  apply (digits_blank_inj _ _ _ _ (str_of_nat_digits _) (str_of_nat_digits _)) in E
    as [Ea _].
  apply str_of_int_inj in En, Ea. lia.
Qed.

Lemma check_passes (W H L : nat) :
  (3 * (L + 1) <= W * H)%nat -> check W H L = Ok tt.
Proof.
  intros Hcap. unfold check.
  destruct (Nat.ltb_spec (W * H) ((L + 1) * 3)); [lia|done].
Qed.

Lemma check_fails (W H L : nat) :
  (W * H < 3 * (L + 1))%nat ->
  check W H L = Raise (Exception (too_small (3 * (L + 1)) (W * H))).
Proof.
  intros Hcap. unfold check.
  destruct (Nat.ltb_spec (W * H) ((L + 1) * 3)); [|lia].
  by replace ((L + 1) * 3)%nat with (3 * (L + 1))%nat by lia.
Qed.

(** A concrete RGB image is recognised by computation. *)
Ltac rgb_image_tac :=
  split; [reflexivity|];
  repeat (apply Forall_cons_2 || apply Forall_nil_2);
  apply rgb_intro; unfold channel; lia.

Ltac bytes_tac :=
  repeat (apply Forall_cons_2 || apply Forall_nil_2); cbn; lia.

(** * The claims *)

(** C1 (amended). Round trip: for every message M that is not empty, whose
    characters all have codes in [0,255] and none code 0, and every RGB grid
    G with at least 3×(len(M)+1) pixels, encoding M into G succeeds (through
    [encrypt_image] and through [encode_message] alike) and decoding the
    grid produced yields exactly M. *)
Theorem round_trip_nonempty (G : Image) (M : str) :
  rgb_image G ->
  Forall (fun c => (c <= 255)%N) M -> Forall (fun c => c <> 0%N) M ->
  (3 * (length M + 1) <= width G * height G)%nat ->
  M <> [] ->
  exists G',
    encrypt_image G M = Ok G'
    /\ encode_message G M = Ok G'
    /\ decode_message G' = Ok M.
Proof.
  intros HG Hbyte Hnul Hcap Hne.
  assert (3 * (length M + 1) <= length (im G))%nat as Hcap'
    by (destruct HG as [-> _]; done).
  destruct (decode_encrypted G M HG Hbyte Hnul Hcap') as (G' & Henc & Hdec).
  exists G'. destruct M as [|c M]; [done|].
  split; [done|]. split; [|done].
  unfold encode_message. by rewrite (check_passes _ _ _ Hcap).
Qed.

Lemma round_trip_nonempty_witness :
  exists G',
    encrypt_image (plain 3 3 black) (text_of_string "Hi") = Ok G'
    /\ encode_message (plain 3 3 black) (text_of_string "Hi") = Ok G'
    /\ decode_message G' = Ok (text_of_string "Hi").
Proof.
  apply round_trip_nonempty;
    [rgb_image_tac | bytes_tac | bytes_tac | cbn; lia | discriminate].
Defined.

(** C1 as stated fails for the empty message: the encoder writes the
    terminator into three black pixels and the decoder raises on the
    result. *)
Lemma round_trip_empty_fails :
  rgb_image (plain 3 1 black)
  /\ (3 * (length (@nil N) + 1) <= width (plain 3 1 black) * height (plain 3 1 black))%nat
  /\ encrypt_image (plain 3 1 black) [] = Ok (plain 3 1 black)
  /\ decode_message (plain 3 1 black) = Raise no_message
  /\ ~ (exists G', encrypt_image (plain 3 1 black) [] = Ok G'
                   /\ decode_message G' = Ok []).
Proof.
  split; [rgb_image_tac|]. split; [cbn; lia|].
  split; [reflexivity|]. split; [reflexivity|].
  intros (G' & Henc & Hdec).
  vm_compute in Henc. injection Henc as <-.
  vm_compute in Hdec. discriminate.
Qed.

(** C2 (amended). Empty message: [encrypt_image] on the empty string and an
    RGB grid with at least 3 pixels rewrites exactly the first 3 pixels,
    whose parities then spell the terminator, and leaves the size and every
    other pixel as they were; decoding the resulting grid raises "No hidden
    message found in this image!", and [encode_message] refuses the empty
    string with "Please fill in all fields!". *)
Theorem empty_message (G : Image) :
  rgb_image G -> (3 <= width G * height G)%nat ->
  exists G',
    encrypt_image G [] = Ok G'
    /\ width G' = width G /\ height G' = height G
    /\ length (im G') = length (im G)
    /\ drop 3 (im G') = drop 3 (im G)
    /\ group_chars (take 3 (im G')) = [0%N]
    /\ decode_message G' = Raise no_message
    /\ encode_message G [] = Raise (Exception "Please fill in all fields!").
Proof.
  intros HG Hcap.
  assert (3 * (length (@nil N) + 1) <= length (im G))%nat as Hcap'
    by (destruct HG as [-> _]; cbn; lia).
  destruct (encrypt_image_spec G [] HG Hcap') as (enc & E & Hlen & _ & Hchars).
  destruct (decode_encrypted G [] HG ltac:(done) ltac:(done) Hcap')
    as (G' & E' & Hdec).
  exists G'. split; [done|]. rewrite E in E'. injection E' as <-.
  cbn [length Nat.add Nat.mul] in *.
  destruct enc as [|q1 [|q2 [|q3 [|? ?]]]]; try discriminate.
  cbn [width height im]. repeat split; try done.
  - cbn [app length]. rewrite length_drop. lia.
  - exact (Hchars ltac:(done)).
Qed.

Lemma empty_message_witness :
  exists G',
    encrypt_image (plain 2 2 white) [] = Ok G'
    /\ width G' = 2%nat /\ height G' = 2%nat
    /\ length (im G') = 4%nat
    /\ drop 3 (im G') = [white]
    /\ group_chars (take 3 (im G')) = [0%N]
    /\ decode_message G' = Raise no_message
    /\ encode_message (plain 2 2 white) []
       = Raise (Exception "Please fill in all fields!").
Proof.
  apply (empty_message (plain 2 2 white)); [rgb_image_tac | cbn; lia].
Defined.

(** C2 as stated fails in its last part: decoding the grid that holds the
    empty message does not return the empty string. *)
Lemma empty_message_not_decoded :
  encrypt_image (plain 2 2 white) []
  = Ok (mkImage 2 2 [[254; 254; 254]; [254; 254; 254]; [254; 254; 255]; white])
  /\ decode_message
       (mkImage 2 2 [[254; 254; 254]; [254; 254; 254]; [254; 254; 255]; white])
     = Raise no_message
  /\ decode_message
       (mkImage 2 2 [[254; 254; 254]; [254; 254; 254]; [254; 254; 255]; white])
     <> Ok [].
Proof. split; [reflexivity|]. split; [reflexivity|]. discriminate. Qed.

(** C3 (amended). The decoder raises "No hidden message found in this
    image!" if and only if zero characters were accumulated, whether the
    scan ended at a terminator or by exhausting the grid; in every other
    case it returns the accumulated characters as a successful result. *)
Theorem decode_raises_iff (G : Image) :
  rgb_image G ->
  (decode_message G = Raise no_message <-> accumulated (im G) = [])
  /\ (accumulated (im G) <> [] -> decode_message G = Ok (accumulated (im G))).
Proof.
  intros [_ Hrgb]. rewrite (decode_message_spec G Hrgb).
  fold (accumulated (im G)). destruct (accumulated (im G)); split; try done.
Qed.

Lemma decode_raises_iff_witness :
  (decode_message (plain 2 3 white) = Raise no_message
   <-> accumulated (im (plain 2 3 white)) = [])
  /\ (accumulated (im (plain 2 3 white)) <> [] ->
      decode_message (plain 2 3 white) = Ok (accumulated (im (plain 2 3 white)))).
Proof. apply decode_raises_iff. rgb_image_tac. Defined.

(** C3 as stated fails where the terminator is reached at once: the first
    group of three black pixels spells code 0 and no character has been
    accumulated, yet the decoder raises. *)
Lemma no_message_iff_fails :
  terminator_reached (im (plain 3 1 black))
  /\ decode_message (plain 3 1 black) = Raise no_message
  /\ ~ (decode_message (plain 3 1 black) = Raise no_message
        <-> ~ terminator_reached (im (plain 3 1 black))
            /\ accumulated (im (plain 3 1 black)) = []).
Proof.
  assert (terminator_reached (im (plain 3 1 black))) as Hreached by (by left).
  split; [done|]. split; [reflexivity|].
  intros [Hraise _]. by destruct (Hraise eq_refl) as [Hnot _].
Qed.

(** C4. Capacity rejection: the check over width W, height H and message
    length L fails exactly when W×H < 3×(L+1), so that W×H = 3×(L+1)−1 is
    rejected and W×H = 3×(L+1) accepted; the failure reports
    needed = 3×(L+1) and available = W×H, in a message from which both
    numbers can be read back; and check(10, 1, 50) fails reporting
    needed=153 and available=10. *)
Theorem capacity_rejection :
  (forall W H L : nat,
     ((exists e, check W H L = Raise e) <-> (W * H < 3 * (L + 1))%nat)
     /\ (check W H L = Ok tt <-> (3 * (L + 1) <= W * H)%nat)
     /\ (forall e, check W H L = Raise e ->
                   e = Exception (too_small (3 * (L + 1)) (W * H)))
     /\ ((W * H = 3 * (L + 1) - 1)%nat -> exists e, check W H L = Raise e)
     /\ ((W * H = 3 * (L + 1))%nat -> check W H L = Ok tt))
  /\ (forall needed available needed' available' : nat,
        too_small needed available = too_small needed' available' ->
        needed = needed' /\ available = available')
  /\ check 10 1 50 = Raise (Exception (too_small 153 10))
  /\ too_small 153 10
     = ("Image is too small!" ++ String "010" "Need at least 153 pixels for this message."
        ++ String "010" "Image has 10 pixels.")%string.
Proof.
  split; [|split; [exact too_small_inj|by split]].
  intros W H L.
  destruct (Nat.lt_ge_cases (W * H) (3 * (L + 1))) as [Hlt|Hge].
  - rewrite (check_fails _ _ _ Hlt).
    split; [split; [done|by eexists]|].
    split; [split; [done|lia]|].
    split; [by intros e [= <-]|].
    split; [by eexists|lia].
  - rewrite (check_passes _ _ _ Hge).
    split; [split; [by intros [e ?]|lia]|].
    split; [done|].
    split; [done|].
    split; [lia|done].
Qed.

(** C5. Untouched tail: for every message M (whatever its characters, so
    also when none is code 0) and every RGB grid G with at least
    3×(len(M)+1) pixels, encoding succeeds, keeps the size of the grid, and
    every pixel of the result at row-major index ≥ 3×(len(M)+1) is the
    pixel of G at that index. *)
Theorem untouched_tail (G : Image) (M : str) :
  rgb_image G ->
  (3 * (length M + 1) <= width G * height G)%nat ->
  exists G',
    encrypt_image G M = Ok G'
    /\ width G' = width G /\ height G' = height G
    /\ length (im G') = length (im G)
    /\ forall i : nat,
         (3 * (length M + 1) <= i)%nat -> im G' !! i = im G !! i.
Proof.
  intros HG Hcap.
  assert (3 * (length M + 1) <= length (im G))%nat as Hcap'
    by (destruct HG as [-> _]; done).
  destruct (encrypt_image_spec G M HG Hcap') as (enc & E & Hlen & _).
  eexists. split; [exact E|]. cbn [width height im].
  repeat split.
  - rewrite length_app, length_drop. lia.
  - intros i Hi. rewrite lookup_app_r by lia.
    rewrite lookup_drop. f_equal. lia.
Qed.

Lemma untouched_tail_witness :
  exists G',
    encrypt_image (plain 2 4 white) (text_of_string "A") = Ok G'
    /\ width G' = 2%nat /\ height G' = 4%nat
    /\ length (im G') = 8%nat
    /\ forall i : nat, (6 <= i)%nat -> im G' !! i = im (plain 2 4 white) !! i.
Proof.
  apply (untouched_tail (plain 2 4 white) (text_of_string "A"));
    [rgb_image_tac | cbn; lia].
Defined.

(** C6. Parity round trip of the codec: for every channel value v in
    [0,255] and every bit b, the bit read back (value mod 2) from
    write_bit(v, b) is b. *)
Theorem parity_round_trip (v : Z) (b : bool) :
  0 <= v <= 255 -> read_bit (write_bit v (bit_char b)) = Z.b2z b.
Proof. intros _. apply write_bit_parity. Qed.

Lemma parity_round_trip_witness :
  read_bit (write_bit 254 (bit_char true)) = 1
  /\ read_bit (write_bit 255 (bit_char false)) = 0.
Proof.
  split; [apply (parity_round_trip 254 true) | apply (parity_round_trip 255 false)];
    lia.
Defined.

(** C7. Bounded distortion: for every channel value v in [0,255] and every
    bit b, the absolute difference between write_bit(v, b) and v is at
    most 1. *)
Theorem bounded_distortion (v : Z) (b : bool) :
  0 <= v <= 255 -> Z.abs (write_bit v (bit_char b) - v) <= 1.
Proof. intros _. apply write_bit_near. Qed.

Lemma bounded_distortion_witness :
  Z.abs (write_bit 0 (bit_char true) - 0) <= 1
  /\ Z.abs (write_bit 255 (bit_char false) - 255) <= 1.
Proof.
  split; [apply (bounded_distortion 0 true) | apply (bounded_distortion 255 false)];
    lia.
Defined.

(** C8. Concrete scenario: encoding "Hi" (codes 72 and 105) into a 3×3 grid
    of black pixels produces a grid whose three groups have, in their first
    8 channels, the parities 01001000, 01101001 and 00000000, every channel
    value 0 or 1, and decoding that grid returns "Hi". *)
Theorem scenario_hi :
  text_of_string "Hi" = [72%N; 105%N]
  /\ exists p1 p2 p3 p4 p5 p6 p7 p8 p9 : pixel,
       encrypt_image (plain 3 3 black) (text_of_string "Hi")
       = Ok (mkImage 3 3 [p1; p2; p3; p4; p5; p6; p7; p8; p9])
       /\ encode_message (plain 3 3 black) (text_of_string "Hi")
          = Ok (mkImage 3 3 [p1; p2; p3; p4; p5; p6; p7; p8; p9])
       /\ lsbs (p1 ++ p2 ++ p3) = [0; 1; 0; 0; 1; 0; 0; 0]
       /\ lsbs (p4 ++ p5 ++ p6) = [0; 1; 1; 0; 1; 0; 0; 1]
       /\ lsbs (p7 ++ p8 ++ p9) = [0; 0; 0; 0; 0; 0; 0; 0]
       /\ Forall (Forall (fun v => v = 0 \/ v = 1))
                 [p1; p2; p3; p4; p5; p6; p7; p8; p9]
       /\ decode_message (mkImage 3 3 [p1; p2; p3; p4; p5; p6; p7; p8; p9])
          = Ok (text_of_string "Hi").
Proof.
  split; [reflexivity|].
  exists [0; 1; 0], [0; 1; 0], [0; 0; 0], [0; 1; 1], [0; 1; 0], [0; 1; 0],
         [0; 0; 0], [0; 0; 0], [0; 0; 0].
  repeat (split; [reflexivity|]).
  split; [|reflexivity].
  repeat (apply Forall_cons_2 || apply Forall_nil_2); auto.
Qed.

(** C9. Accept-partial-data policy: for every RGB grid that is exhausted
    before any terminator is produced (no complete group of three pixels
    spells code 0), when at least one character was accumulated (there is a
    complete group), the decoder returns the characters of all the complete
    groups as a successful result, not an error. *)
Theorem partial_data_accepted (G : Image) :
  rgb_image G ->
  ~ terminator_reached (im G) -> group_chars (im G) <> [] ->
  decode_message G = Ok (group_chars (im G)).
Proof.
  intros [_ Hrgb] Hnot Hsome. rewrite (decode_message_spec G Hrgb).
  rewrite (until_terminator_none _ Hnot).
  by destruct (group_chars (im G)).
Qed.

Lemma partial_data_accepted_witness :
  decode_message (plain 2 2 white) = Ok [255%N].
Proof.
  apply (partial_data_accepted (plain 2 2 white)); [rgb_image_tac | | discriminate].
  intros [H|[]]. discriminate H.
Defined.

(** C10. Whenever the upfront capacity check passes (the grid has at least
    3×(len(text)+1) pixels), the two failure branches of the encoder, of
    the generator on the exhaustion of the pixels and of the writer past the
    last row, are not taken: encoding runs to completion, whatever the
    characters of the text, and leaves an RGB image. *)
Theorem encoder_never_fails (G : Image) (text : str) :
  rgb_image G ->
  check (width G) (height G) (length text) = Ok tt ->
  (exists G', encrypt_image G text = Ok G' /\ rgb_image G'
              /\ (text <> [] -> encode_message G text = Ok G'))
  /\ encrypt_image G text
     <> Raise (Exception "Image is too small to encode this message!")
  /\ encrypt_image G text
     <> Raise (Exception "Image is too small for this message!").
Proof.
  intros HG Hcheck.
  assert (3 * (length text + 1) <= length (im G))%nat as Hcap.
  { destruct HG as [-> _].
    destruct (Nat.lt_ge_cases (width G * height G) (3 * (length text + 1)))
      as [Hlt|Hge]; [|done].
    rewrite (check_fails _ _ _ Hlt) in Hcheck. discriminate. }
  destruct (encrypt_image_spec G text HG Hcap) as (enc & E & _).
  split; [|by rewrite E].
  eexists. split; [exact E|]. split; [by eapply encrypt_image_rgb|].
  intros Hne. unfold encode_message. rewrite Hcheck.
  by destruct text.
Qed.

Lemma encoder_never_fails_witness :
  (exists G', encrypt_image (plain 3 2 white) (text_of_string "A") = Ok G'
              /\ rgb_image G'
              /\ (text_of_string "A" <> [] ->
                  encode_message (plain 3 2 white) (text_of_string "A") = Ok G'))
  /\ encrypt_image (plain 3 2 white) (text_of_string "A")
     <> Raise (Exception "Image is too small to encode this message!")
  /\ encrypt_image (plain 3 2 white) (text_of_string "A")
     <> Raise (Exception "Image is too small for this message!").
Proof.
  apply (encoder_never_fails (plain 3 2 white) (text_of_string "A"));
    [rgb_image_tac | reflexivity].
Defined.

(** * Further properties of the encoder and the decoder *)

(** ** The encoder as a function of the raster *)

Lemma modify_channels_write_bits (binary_data : string) (p1 p2 p3 : pixel) :
  (8 <= String.length binary_data)%nat -> rgb p1 -> rgb p2 -> rgb p3 ->
  for_each (seq 0 8) (modify_channel binary_data)
           (take 3 p1 ++ take 3 p2 ++ take 3 p3)
  = Ok (write_bits 8 binary_data (p1 ++ p2 ++ p3)).
Proof.
  intros (c0 & c1 & c2 & c3 & c4 & c5 & c6 & c7 & s & ->)%string_length_8
         (a0 & a1 & a2 & -> & _)%rgb_inv (a3 & a4 & a5 & -> & _)%rgb_inv
         (a6 & a7 & a8 & -> & _)%rgb_inv.
  reflexivity.
Qed.

Lemma embed_group_rgb (binary_data : string) (p1 p2 p3 : pixel) :
  rgb p1 -> rgb p2 -> rgb p3 -> Forall rgb (embed_group binary_data p1 p2 p3).
Proof.
  intros (a0 & a1 & a2 & -> & ? & ? & ?)%rgb_inv
         (a3 & a4 & a5 & -> & ? & ? & ?)%rgb_inv
         (a6 & a7 & a8 & -> & ? & ? & ?)%rgb_inv.
  unfold embed_group. cbn [app].
  do 8 (destruct binary_data as [|? binary_data];
        [cbn; repeat apply Forall_cons_2; try apply Forall_nil_2;
         apply rgb_intro; auto using write_bit_channel|]).
  cbn. repeat apply Forall_cons_2; try apply Forall_nil_2;
    apply rgb_intro; auto using write_bit_channel.
Qed.

(** One turn of the loop on a raster with three pixels left at least: the
    three pixels at the position of the generator are replaced, and the
    invariant of the loop holds again. *)
Lemma encrypt_loop_turn (W H : nat) (binary_data : string) (binary : list string)
    (front : list pixel) (p1 p2 p3 : pixel) (rest : list pixel) (x y : nat) :
  (8 <= String.length binary_data)%nat ->
  (x < W)%nat -> length front = (y * W + x)%nat ->
  length (front ++ p1 :: p2 :: p3 :: rest) = (W * H)%nat ->
  rgb p1 -> rgb p2 -> rgb p3 ->
  exists x' y',
    encrypt_loop (binary_data :: binary) (length front)
                 (mkWriter (mkImage W H (front ++ p1 :: p2 :: p3 :: rest)) x y)
    = encrypt_loop binary (length (front ++ embed_group binary_data p1 p2 p3))
        (mkWriter
           (mkImage W H ((front ++ embed_group binary_data p1 p2 p3) ++ rest))
           x' y')
    /\ (x' < W)%nat
    /\ length (front ++ embed_group binary_data p1 p2 p3) = (y' * W + x')%nat.
Proof.
  intros Hs Hx Hfront Hlen Hp1 Hp2 Hp3.
  cbn [encrypt_loop w_img im].
  rewrite next_pixels_middle, (modify_channels_write_bits _ _ _ _ Hs Hp1 Hp2 Hp3).
  cbn [bind]. unfold embed_group.
  set (ps := write_bits 8 binary_data (p1 ++ p2 ++ p3)).
  set (q1 := take 3 ps). set (q2 := take 3 (drop 3 ps)).
  set (q3 := take 3 (drop 6 ps)).
  destruct (write_pixel_next W H front p1 (p2 :: p3 :: rest) x y q1 Hx Hfront Hlen)
    as (x1 & y1 & -> & Hx1 & Hfront1).
  cbn [bind].
  assert (length ((front ++ [q1]) ++ p2 :: p3 :: rest) = (W * H)%nat) as Hlen1.
  { rewrite <- Hlen, !length_app. cbn. lia. }
  destruct (write_pixel_next W H _ p2 (p3 :: rest) x1 y1 q2 Hx1 Hfront1 Hlen1)
    as (x2 & y2 & -> & Hx2 & Hfront2).
  cbn [bind].
  assert (length (((front ++ [q1]) ++ [q2]) ++ p3 :: rest) = (W * H)%nat) as Hlen2.
  { rewrite <- Hlen, !length_app. cbn. lia. }
  destruct (write_pixel_next W H _ p3 rest x2 y2 q3 Hx2 Hfront2 Hlen2)
    as (x3 & y3 & -> & Hx3 & Hfront3).
  cbn [bind].
  assert (((front ++ [q1]) ++ [q2]) ++ [q3] = front ++ [q1; q2; q3]) as E
    by (by rewrite <- !app_assoc).
  rewrite E in *.
  exists x3, y3. split; [|done].
  f_equal. rewrite length_app. cbn [length]. lia.
Qed.

Lemma encrypt_loop_embedded (W H : nat) (binary : list string) :
  Forall (fun s => (8 <= String.length s)%nat) binary ->
  forall (front todo : list pixel) (x y : nat),
    (x < W)%nat -> length front = (y * W + x)%nat ->
    length (front ++ todo) = (W * H)%nat ->
    Forall rgb todo -> (3 * length binary <= length todo)%nat ->
    exists x' y',
      encrypt_loop binary (length front)
                   (mkWriter (mkImage W H (front ++ todo)) x y)
      = Ok (mkWriter (mkImage W H (front ++ embedded binary todo)) x' y').
Proof.
  induction 1 as [|s binary Hs _ IH]; intros front todo x y Hx Hfront Hlen Hrgb Hcap.
  { exists x, y. by destruct todo. }
  cbn [length] in Hcap.
  destruct todo as [|p1 [|p2 [|p3 rest]]]; cbn [length] in Hcap; try lia.
  apply Forall_cons in Hrgb as [Hp1 Hrgb].
  apply Forall_cons in Hrgb as [Hp2 Hrgb].
  apply Forall_cons in Hrgb as [Hp3 Hrgb].
  destruct (encrypt_loop_turn W H s binary front p1 p2 p3 rest x y
              Hs Hx Hfront Hlen Hp1 Hp2 Hp3) as (x1 & y1 & -> & Hx1 & Hfront1).
  assert (length ((front ++ embed_group s p1 p2 p3) ++ rest) = (W * H)%nat)
    as Hlen1.
  { rewrite <- Hlen, !length_app. cbn. lia. }
  destruct (IH _ rest x1 y1 Hx1 Hfront1 Hlen1 Hrgb ltac:(lia)) as (x' & y' & ->).
  exists x', y'. cbn [embedded]. by rewrite <- !app_assoc.
Qed.

Lemma encrypt_loop_short (W H : nat) (binary : list string) :
  Forall (fun s => (8 <= String.length s)%nat) binary ->
  forall (front todo : list pixel) (x y : nat),
    (x < W)%nat -> length front = (y * W + x)%nat ->
    length (front ++ todo) = (W * H)%nat ->
    Forall rgb todo -> (length todo < 3 * length binary)%nat ->
    encrypt_loop binary (length front)
                 (mkWriter (mkImage W H (front ++ todo)) x y)
    = Raise (Exception "Image is too small to encode this message!").
Proof.
  induction 1 as [|s binary Hs _ IH]; intros front todo x y Hx Hfront Hlen Hrgb Hcap.
  { cbn in Hcap. lia. }
  destruct (Nat.lt_ge_cases (length todo) 3) as [Hshort|Hlong].
  { cbn [encrypt_loop w_img im]. rewrite next_pixels_short; [done|].
    rewrite length_app. lia. }
  cbn [length] in Hcap.
  destruct todo as [|p1 [|p2 [|p3 rest]]]; cbn [length] in Hlong, Hcap; try lia.
  apply Forall_cons in Hrgb as [Hp1 Hrgb].
  apply Forall_cons in Hrgb as [Hp2 Hrgb].
  apply Forall_cons in Hrgb as [Hp3 Hrgb].
  destruct (encrypt_loop_turn W H s binary front p1 p2 p3 rest x y
              Hs Hx Hfront Hlen Hp1 Hp2 Hp3) as (x1 & y1 & -> & Hx1 & Hfront1).
  assert (length ((front ++ embed_group s p1 p2 p3) ++ rest) = (W * H)%nat)
    as Hlen1.
  { rewrite <- Hlen, !length_app. cbn. lia. }
  apply (IH _ rest x1 y1 Hx1 Hfront1 Hlen1 Hrgb). lia.
Qed.

Lemma data_in_binary_length (data : str) :
  Forall (fun s => (8 <= String.length s)%nat) (data_in_binary data)
  /\ length (data_in_binary data) = (length data + 1)%nat.
Proof.
  unfold data_in_binary. split.
  - apply Forall_map, Forall_forall. intros c _. apply format_08b_length.
  - rewrite length_map, length_app. done.
Qed.

Lemma embedded_length (binary : list string) :
  forall raster, Forall rgb raster -> length (embedded binary raster) = length raster.
Proof.
  induction binary as [|s binary IH]; intros raster Hrgb; [by destruct raster|].
  destruct raster as [|p1 [|p2 [|p3 rest]]]; try done.
  apply Forall_cons in Hrgb as [_ Hrgb].
  apply Forall_cons in Hrgb as [_ Hrgb].
  apply Forall_cons in Hrgb as [_ Hrgb].
  cbn [embedded embed_group app length]. by rewrite IH.
Qed.

Lemma encrypt_image_embedded (G : Image) (M : str) :
  rgb_image G -> (3 * (length M + 1) <= width G * height G)%nat ->
  encrypt_image G M
  = Ok (mkImage (width G) (height G) (embedded (data_in_binary M) (im G))).
Proof.
  destruct G as [W H raster]. cbn [width height im].
  intros [Hlen Hrgb] Hcap. cbn [width height im] in Hlen, Hrgb.
  destruct (data_in_binary_length M) as [Hbin Hn].
  assert (0 < W)%nat as HW by nia.
  destruct (encrypt_loop_embedded W H _ Hbin [] raster 0 0 HW eq_refl Hlen Hrgb)
    as (x' & y' & Hloop); [lia|].
  unfold encrypt_image. cbn [length app] in Hloop. by rewrite Hloop.
Qed.

Lemma encrypt_image_short (G : Image) (M : str) :
  rgb_image G -> (width G * height G < 3 * (length M + 1))%nat ->
  encrypt_image G M = Raise (Exception "Image is too small to encode this message!").
Proof.
  destruct G as [W H raster]. cbn [width height im].
  intros [Hlen Hrgb] Hcap. cbn [width height im] in Hlen, Hrgb.
  destruct (data_in_binary_length M) as [Hbin Hn].
  unfold encrypt_image.
  destruct (Nat.eq_dec W 0%nat) as [->|HW].
  - destruct raster; [|cbn in Hlen; lia].
    destruct (data_in_binary M); [cbn in Hn; lia|done].
  - pose proof (encrypt_loop_short W H _ Hbin [] raster 0 0) as Hloop.
    cbn [length app] in Hloop. rewrite Hloop; try done; lia.
Qed.

(** ** The digits of a character code of any size *)

Lemma append_assoc (s t u : string) : ((s ++ t) ++ u = s ++ t ++ u)%string.
Proof. induction s as [|c s IH]; [done|]. cbn. by rewrite IH. Qed.

Lemma append_empty_r (s : string) : (s ++ "")%string = s.
Proof. induction s as [|c s IH]; [done|]. cbn. by rewrite IH. Qed.

Lemma bin_digits_acc (p : positive) :
  forall acc, bin_digits p acc = (bin_digits p "" ++ acc)%string.
Proof.
  induction p as [q IH|q IH|]; intros acc; cbn [bin_digits]; [| |done];
    rewrite (IH (String _ acc)), (IH (String _ "")), append_assoc; done.
Qed.

Lemma bin_digits_length (p : positive) :
  String.length (bin_digits p "") = N.to_nat (N.size (N.pos p)).
Proof.
  induction p as [q IH|q IH|]; [| |done]; cbn [bin_digits];
    rewrite bin_digits_acc, length_append, IH; cbn; lia.
Qed.

Lemma squash_byte (c : char) : (c <= 255)%N -> squash c = c.
Proof.
  intros Hc. apply N.eqb_eq. revert c Hc.
  apply (bytes_all (fun c => (squash c =? c)%N)). by vm_compute.
Qed.

Lemma size_byte (c : char) : (N.size c <= 8)%N -> (c <= 255)%N.
Proof.
  intros Hsize. pose proof (N.size_gt c) as Hgt.
  assert (2 ^ N.size c <= 2 ^ 8)%N by (apply N.pow_le_mono_r; lia).
  change (2 ^ 8)%N with 256%N in *. lia.
Qed.

Lemma squash_double (q : positive) (c : char) :
  (8 <= N.size (N.pos q))%N -> N.div2 c = N.pos q -> N.size c = N.succ (N.size (N.pos q)) ->
  squash c = squash (N.pos q).
Proof.
  intros Hq Hdiv Hsize. unfold squash. rewrite Hsize, N.sub_succ_l by done.
  rewrite <- N.add_1_l, <- N.shiftr_shiftr.
  change (N.shiftr c 1) with (N.div2 c). by rewrite Hdiv.
Qed.

Lemma bin_digits_squash (p : positive) :
  (8 <= N.size (N.pos p))%N ->
  exists rest,
    bin_digits p "" = (bits_string (byte_bits (squash (N.pos p))) ++ rest)%string.
Proof.
  assert (forall p, N.size (N.pos p) = 8%N ->
            bin_digits p "" = bits_string (byte_bits (squash (N.pos p)))) as Hbyte.
  { clear p. intros p Hsize.
    assert (N.pos p <= 255)%N as Hc by (apply size_byte; lia).
    rewrite (squash_byte _ Hc), <- (format_08b_byte _ Hc).
    unfold ord, format_08b, zero_fill. cbn [Z.of_N].
    by rewrite bin_digits_length, Hsize. }
  induction p as [q IH|q IH|]; intros Hsize; [| |by vm_compute in Hsize].
  - destruct (N.le_gt_cases 8 (N.size (N.pos q))) as [Hq|Hq].
    + destruct (IH Hq) as [rest Hrest].
      exists (rest ++ "1")%string. cbn [bin_digits].
      rewrite bin_digits_acc, Hrest, append_assoc.
      by rewrite (squash_double q (N.pos q~1) Hq).
    + exists ""%string. rewrite append_empty_r. apply Hbyte.
      change (N.size (N.pos q~1)) with (N.succ (N.size (N.pos q))) in *. lia.
  - destruct (N.le_gt_cases 8 (N.size (N.pos q))) as [Hq|Hq].
    + destruct (IH Hq) as [rest Hrest].
      exists (rest ++ "0")%string. cbn [bin_digits].
      rewrite bin_digits_acc, Hrest, append_assoc.
      by rewrite (squash_double q (N.pos q~0) Hq).
    + exists ""%string. rewrite append_empty_r. apply Hbyte.
      change (N.size (N.pos q~0)) with (N.succ (N.size (N.pos q))) in *. lia.
Qed.

(** [format(ord(c), '08b')] starts with the eight leading bits of the code
    of [c], whatever its size. *)
Lemma format_08b_squash (c : char) :
  exists rest,
    format_08b (ord c) = (bits_string (byte_bits (squash c)) ++ rest)%string.
Proof.
  destruct (N.le_gt_cases c 255) as [Hc|Hc].
  - exists ""%string. by rewrite append_empty_r, squash_byte, format_08b_byte.
  - destruct c as [|p]; [lia|].
    assert (8 <= N.size (N.pos p))%N as Hsize.
    { destruct (N.le_gt_cases 8 (N.size (N.pos p))) as [|Hlt]; [done|].
      pose proof (size_byte (N.pos p) ltac:(lia)). lia. }
    destruct (bin_digits_squash p Hsize) as [rest Hrest].
    exists rest. rewrite <- Hrest.
    unfold ord, format_08b, zero_fill. cbn [Z.of_N].
    rewrite bin_digits_length.
    replace (8 - N.to_nat (N.size (N.pos p)))%nat with 0%nat by lia. done.
Qed.

Lemma squash_wide (c : char) : (255 < c)%N -> (128 <= squash c <= 255)%N.
Proof.
  intros Hc. unfold squash. rewrite N.shiftr_div_pow2.
  assert (8 < N.size c)%N as Hsize.
  { destruct (N.le_gt_cases (N.size c) 8) as [Hle|]; [|done].
    pose proof (size_byte c Hle). lia. }
  pose proof (N.size_gt c) as Hgt.
  pose proof (N.size_le c) as Hle.
  set (k := (N.size c - 8)%N) in *.
  replace (N.size c) with (k + 8)%N in Hgt, Hle by lia.
  rewrite N.pow_add_r in Hgt, Hle. change (2 ^ 8)%N with 256%N in *.
  assert (0 < 2 ^ k)%N as Hpos by (apply N.neq_0_lt_0, N.pow_nonzero; lia).
  rewrite N.succ_double_spec in Hle.
  split.
  - apply N.div_le_lower_bound; lia.
  - apply N.lt_succ_r, N.Div0.div_lt_upper_bound; lia.
Qed.

Lemma squash_zero (c : char) : squash c = 0%N <-> c = 0%N.
Proof.
  split; [|by intros ->].
  destruct (N.le_gt_cases c 255) as [Hc|Hc].
  - by rewrite (squash_byte c Hc).
  - pose proof (squash_wide c Hc). lia.
Qed.

Lemma squash_le (c : char) : (squash c <= 255)%N.
Proof.
  destruct (N.le_gt_cases c 255) as [Hc|Hc].
  - by rewrite squash_byte.
  - apply squash_wide, Hc.
Qed.

(** ** What the decoder reads from the raster that the encoder leaves *)

Lemma embed_group_chars (c : char) (p1 p2 p3 : pixel) (rest : list pixel) :
  rgb p1 -> rgb p2 -> rgb p3 ->
  group_chars (embed_group (format_08b (ord c)) p1 p2 p3 ++ rest)
  = squash c :: group_chars rest.
Proof.
  intros (a0 & a1 & a2 & -> & _)%rgb_inv (a3 & a4 & a5 & -> & _)%rgb_inv
         (a6 & a7 & a8 & -> & _)%rgb_inv.
  destruct (format_08b_squash c) as [s ->].
  cbn [embed_group app group_chars byte_bits map bits_string append write_bits
       take drop].
  f_equal.
  transitivity (Z.to_N (Z.of_N (squash c))); [f_equal|apply N2Z.id].
  etransitivity; [|exact (byte_bits_value _ (squash_le c))].
  unfold lsb_code, lsbs. cbn [app take map fold_left].
  rewrite !write_bit_parity. reflexivity.
Qed.

Lemma embedded_chars (cs : str) :
  forall raster : list pixel,
    Forall rgb raster -> (3 * length cs <= length raster)%nat ->
    group_chars (embedded (map (fun c => format_08b (ord c)) cs) raster)
    = map squash cs ++ group_chars (drop (3 * length cs) raster).
Proof.
  induction cs as [|c cs IH]; intros raster Hrgb Hcap.
  { cbn. by destruct raster. }
  cbn [length] in Hcap.
  destruct raster as [|p1 [|p2 [|p3 rest]]]; cbn [length] in Hcap; try lia.
  apply Forall_cons in Hrgb as [Hp1 Hrgb].
  apply Forall_cons in Hrgb as [Hp2 Hrgb].
  apply Forall_cons in Hrgb as [Hp3 Hrgb].
  cbn [map embedded length].
  rewrite embed_group_chars, IH by (done || lia).
  replace (3 * S (length cs))%nat with (S (S (S (3 * length cs)))) by lia.
  done.
Qed.

Lemma until_terminator_app_nul (A T : str) :
  until_terminator (A ++ 0%N :: T) = until_terminator A.
Proof.
  induction A as [|c A IH]; [done|]. cbn.
  destruct (N.eqb_spec c 0); [done|]. by rewrite IH.
Qed.

Lemma embedded_rgb (binary : list string) :
  forall raster, Forall rgb raster -> Forall rgb (embedded binary raster).
Proof.
  induction binary as [|s binary IH]; intros raster Hrgb; [by destruct raster|].
  destruct raster as [|p1 [|p2 [|p3 rest]]]; try done.
  apply Forall_cons in Hrgb as [Hp1 Hrgb].
  apply Forall_cons in Hrgb as [Hp2 Hrgb].
  apply Forall_cons in Hrgb as [Hp3 Hrgb].
  cbn [embedded]. apply Forall_app. split; [by apply embed_group_rgb|by apply IH].
Qed.

(** ** How far the encoder moves the channels *)

Lemma write_bit_high (v : Z) (bit : ascii) :
  channel v ->
  write_bit v bit = 2 * (v / 2) + (if Ascii.eqb bit "1" then 1 else 0).
Proof.
  unfold channel, write_bit. intros Hv.
  destruct (Ascii.eqb bit "1");
    repeat match goal with
           | |- context [?a =? ?b] => destruct (Z.eqb_spec a b)
           | |- context [?a <? ?b] => destruct (Z.ltb_spec a b)
           end; Z.div_mod_to_equations; lia.
Qed.

Lemma write_bit_same_high (v : Z) (bit : ascii) :
  channel v -> write_bit v bit / 2 = v / 2.
Proof.
  intros Hv. rewrite (write_bit_high v bit Hv).
  destruct (Ascii.eqb bit "1"); Z.div_mod_to_equations; lia.
Qed.

Lemma write_bit_idem (v : Z) (bit : ascii) :
  write_bit (write_bit v bit) bit = write_bit v bit.
Proof.
  unfold write_bit.
  destruct (Ascii.eqb bit "1");
    repeat match goal with
           | |- context [?a =? ?b] => destruct (Z.eqb_spec a b)
           | |- context [?a <? ?b] => destruct (Z.ltb_spec a b)
           end; try reflexivity; Z.div_mod_to_equations; lia.
Qed.

Lemma write_bits_same_high (n : nat) :
  forall (s : string) (vs : list Z),
    Forall channel vs ->
    Forall2 (fun v v' => v' / 2 = v / 2) vs (write_bits n s vs).
Proof.
  assert (forall vs : list Z, Forall2 (fun v v' => v' / 2 = v / 2) vs vs) as Hrefl
    by (intros vs; by apply Forall_Forall2_diag, Forall_true).
  induction n as [|n IH]; intros s vs Hvs; [apply Hrefl|].
  destruct s as [|c s], vs as [|v vs]; cbn [write_bits]; try apply Hrefl.
  apply Forall_cons in Hvs as [Hv Hvs].
  constructor; [by apply write_bit_same_high|by apply IH].
Qed.

Lemma write_bits_lookup_ge (n : nat) :
  forall (s : string) (vs : list Z) (i : nat),
    (n <= i)%nat -> write_bits n s vs !! i = vs !! i.
Proof.
  induction n as [|n IH]; intros s vs i Hi; [done|].
  destruct s as [|c s], vs as [|v vs]; try done.
  destruct i as [|i]; [lia|]. cbn. apply IH. lia.
Qed.

(** The three pixels that the generator yields for three pixels of an RGB
    image: every channel keeps its seven high bits, and the blue channel of
    the third pixel is not touched. *)
Lemma embed_group_near (s : string) (p1 p2 p3 : pixel) :
  rgb p1 -> rgb p2 -> rgb p3 ->
  exists q1 q2 q3,
    embed_group s p1 p2 p3 = [q1; q2; q3]
    /\ Forall2 (fun v v' => v' / 2 = v / 2) p1 q1
    /\ Forall2 (fun v v' => v' / 2 = v / 2) p2 q2
    /\ Forall2 (fun v v' => v' / 2 = v / 2) p3 q3
    /\ q3 !! 2%nat = p3 !! 2%nat.
Proof.
  intros (a0 & a1 & a2 & -> & ? & ? & ?)%rgb_inv
         (a3 & a4 & a5 & -> & ? & ? & ?)%rgb_inv
         (a6 & a7 & a8 & -> & ? & ? & ?)%rgb_inv.
  unfold embed_group. cbn [app].
  assert (Forall channel [a0; a1; a2; a3; a4; a5; a6; a7; a8]) as Hch
    by (repeat apply Forall_cons_2; auto).
  pose proof (write_bits_same_high 8 s _ Hch) as Hnear.
  pose proof (write_bits_lookup_ge 8 s [a0; a1; a2; a3; a4; a5; a6; a7; a8] 8
                ltac:(lia)) as Hblue.
  destruct (write_bits 8 s [a0; a1; a2; a3; a4; a5; a6; a7; a8])
    as [|w0 [|w1 [|w2 [|w3 [|w4 [|w5 [|w6 [|w7 [|w8 [|? ?]]]]]]]]]];
    try (apply Forall2_length in Hnear; discriminate).
  repeat (apply Forall2_cons in Hnear as [? Hnear]).
  eexists _, _, _. split; [reflexivity|].
  repeat split; try (repeat constructor; done).
Qed.

Lemma embedded_near (binary : list string) :
  forall (raster : list pixel) (i : nat) (p p' : pixel),
    Forall rgb raster ->
    raster !! i = Some p -> embedded binary raster !! i = Some p' ->
    Forall2 (fun v v' => v' / 2 = v / 2) p p'
    /\ ((i mod 3 = 2)%nat -> p' !! 2%nat = p !! 2%nat).
Proof.
  assert (forall p : pixel, Forall2 (fun v v' => v' / 2 = v / 2) p p) as Hrefl
    by (intros p; by apply Forall_Forall2_diag, Forall_true).
  induction binary as [|s binary IH]; intros raster i p p' Hrgb Hp Hp'.
  { assert (embedded [] raster = raster) as E by (by destruct raster).
    rewrite E in Hp'. by simplify_eq. }
  destruct raster as [|p1 [|p2 [|p3 rest]]];
    try (cbn in Hp'; by simplify_eq).
  apply Forall_cons in Hrgb as [Hp1 Hrgb].
  apply Forall_cons in Hrgb as [Hp2 Hrgb].
  apply Forall_cons in Hrgb as [Hp3 Hrgb].
  change (embedded (s :: binary) (p1 :: p2 :: p3 :: rest))
    with (embed_group s p1 p2 p3 ++ embedded binary rest) in Hp'.
  destruct (embed_group_near s p1 p2 p3 Hp1 Hp2 Hp3)
    as (q1 & q2 & q3 & E & H1 & H2 & H3 & Hblue).
  rewrite E in Hp'.
  destruct i as [|[|[|i]]]; cbn in Hp, Hp'; simplify_eq; try done.
  replace (S (S (S i))) with (i + 1 * 3)%nat by lia.
  rewrite Nat.Div0.mod_add. by apply (IH rest).
Qed.

(** ** Encoding twice *)

Lemma write_bits_idem (n : nat) :
  forall (s : string) (vs : list Z),
    write_bits n s (write_bits n s vs) = write_bits n s vs.
Proof.
  induction n as [|n IH]; intros s vs; [done|].
  destruct s as [|c s], vs as [|v vs]; try done.
  cbn [write_bits]. by rewrite write_bit_idem, IH.
Qed.

Lemma write_bits_length (n : nat) :
  forall (s : string) (vs : list Z), length (write_bits n s vs) = length vs.
Proof.
  induction n as [|n IH]; intros s vs; [done|].
  destruct s as [|c s], vs as [|v vs]; try done.
  cbn [write_bits length]. by rewrite IH.
Qed.

Lemma embed_group_idem (s : string) (p1 p2 p3 : pixel) :
  rgb p1 -> rgb p2 -> rgb p3 ->
  exists q1 q2 q3,
    embed_group s p1 p2 p3 = [q1; q2; q3]
    /\ embed_group s q1 q2 q3 = [q1; q2; q3].
Proof.
  intros (a0 & a1 & a2 & -> & _)%rgb_inv (a3 & a4 & a5 & -> & _)%rgb_inv
         (a6 & a7 & a8 & -> & _)%rgb_inv.
  unfold embed_group at 1. cbn [app].
  pose proof (write_bits_idem 8 s [a0; a1; a2; a3; a4; a5; a6; a7; a8]) as Hidem.
  pose proof (write_bits_length 8 s [a0; a1; a2; a3; a4; a5; a6; a7; a8]) as Hlen.
  destruct (write_bits 8 s [a0; a1; a2; a3; a4; a5; a6; a7; a8])
    as [|w0 [|w1 [|w2 [|w3 [|w4 [|w5 [|w6 [|w7 [|w8 [|? ?]]]]]]]]]];
    try discriminate.
  eexists _, _, _. split; [reflexivity|].
  unfold embed_group. cbn [take drop app]. by rewrite Hidem.
Qed.

Lemma embedded_idem (binary : list string) :
  forall raster : list pixel,
    Forall rgb raster ->
    embedded binary (embedded binary raster) = embedded binary raster.
Proof.
  induction binary as [|s binary IH]; intros raster Hrgb; [by destruct raster|].
  destruct raster as [|p1 [|p2 [|p3 rest]]]; try done.
  apply Forall_cons in Hrgb as [Hp1 Hrgb].
  apply Forall_cons in Hrgb as [Hp2 Hrgb].
  apply Forall_cons in Hrgb as [Hp3 Hrgb].
  change (embedded (s :: binary) (p1 :: p2 :: p3 :: rest))
    with (embed_group s p1 p2 p3 ++ embedded binary rest).
  destruct (embed_group_idem s p1 p2 p3 Hp1 Hp2 Hp3) as (q1 & q2 & q3 & E & E').
  rewrite E. cbn [app].
  change (embedded (s :: binary) (q1 :: q2 :: q3 :: embedded binary rest))
    with (embed_group s q1 q2 q3 ++ embedded binary (embedded binary rest)).
  by rewrite E', IH.
Qed.

(** ** What the decoder returns *)

Lemma lsb_code_byte (pixel_set : list Z) : 0 <= lsb_code pixel_set < 256.
Proof.
  unfold lsb_code, lsbs, read_bit.
  do 8 (destruct pixel_set as [|? pixel_set];
        [cbn [take map fold_left]; Z.div_mod_to_equations; lia|]).
  cbn [take map fold_left]. rewrite take_0. cbn [map fold_left].
  Z.div_mod_to_equations. lia.
Qed.

Lemma group_chars_byte (raster : list pixel) :
  Forall (fun c => (c <= 255)%N) (group_chars raster).
Proof.
  induction raster as [| | |p1 p2 p3 raster IH] using list_ind3;
    try apply Forall_nil_2.
  cbn [group_chars]. apply Forall_cons_2; [|done].
  pose proof (lsb_code_byte (p1 ++ p2 ++ p3)). lia.
Qed.

Lemma group_chars_length (raster : list pixel) :
  (3 * length (group_chars raster) <= length raster)%nat.
Proof.
  induction raster as [| | |p1 p2 p3 raster IH] using list_ind3; cbn; lia.
Qed.

Lemma until_terminator_prefix (cs : str) :
  exists rest, cs = until_terminator cs ++ rest.
Proof.
  induction cs as [|c cs [rest IH]]; [by exists []|]. cbn.
  destruct (N.eqb_spec c 0); [by eexists|].
  exists rest. cbn. by rewrite <- IH.
Qed.

Lemma until_terminator_nonzero (cs : str) :
  Forall (fun c => c <> 0%N) (until_terminator cs).
Proof.
  induction cs as [|c cs IH]; [apply Forall_nil_2|]. cbn.
  destruct (N.eqb_spec c 0); [apply Forall_nil_2|by apply Forall_cons_2].
Qed.

Lemma until_terminator_reached (A B : str) :
  In 0%N A -> until_terminator (A ++ B) = until_terminator A.
Proof.
  induction A as [|c A IH]; [done|]. intros [->|Hin]; [done|]. cbn.
  destruct (N.eqb_spec c 0); [done|]. by rewrite IH.
Qed.

Lemma map_read_bit_parity (l l' : list Z) :
  Forall2 (fun v v' => read_bit v = read_bit v') l l' ->
  map read_bit l = map read_bit l'.
Proof. induction 1 as [|v v' l l' Hv _ IH]; [done|]. cbn. by rewrite Hv, IH. Qed.

Lemma group_chars_parity (raster : list pixel) :
  forall raster' : list pixel,
    Forall2 (Forall2 (fun v v' => read_bit v = read_bit v')) raster raster' ->
    group_chars raster = group_chars raster'.
Proof.
  induction raster as [| | |p1 p2 p3 raster IH] using list_ind3;
    intros raster' Hpar.
  - by apply Forall2_nil_inv_l in Hpar as ->.
  - apply Forall2_cons_inv_l in Hpar as (q1 & r1 & _ & ->%Forall2_nil_inv_l & ->).
    done.
  - apply Forall2_cons_inv_l in Hpar as (q1 & r1 & _ & Hpar & ->).
    apply Forall2_cons_inv_l in Hpar as (q2 & r2 & _ & ->%Forall2_nil_inv_l & ->).
    done.
  - apply Forall2_cons_inv_l in Hpar as (q1 & r1 & H1 & Hpar & ->).
    apply Forall2_cons_inv_l in Hpar as (q2 & r2 & H2 & Hpar & ->).
    apply Forall2_cons_inv_l in Hpar as (q3 & r3 & H3 & Hpar & ->).
    cbn [group_chars]. rewrite (IH _ Hpar). do 2 f_equal.
    unfold lsb_code, lsbs. f_equal.
    apply map_read_bit_parity, Forall2_take.
    by repeat apply Forall2_app.
Qed.

(** ** The path of the file saved *)

Lemma endswith_app (s suffix : str) : endswith (s ++ suffix) suffix = true.
Proof.
  unfold endswith. apply bool_decide_eq_true.
  rewrite length_app.
  replace (length s + length suffix - length suffix)%nat with (length s) by lia.
  apply drop_app_length.
Qed.

Lemma png_path_ends (output_path : str) :
  endswith (lower (png_path output_path)) dot_png = true.
Proof.
  unfold png_path.
  destruct (endswith (lower output_path) dot_png) eqn:E; [done|].
  unfold lower. rewrite map_app. apply endswith_app.
Qed.

Lemma png_path_idem (output_path : str) :
  png_path (png_path output_path) = png_path output_path.
Proof. unfold png_path at 1. by rewrite png_path_ends. Qed.

Lemma png_path_nonempty (output_path : str) : png_path output_path <> [].
Proof.
  unfold png_path. destruct (endswith (lower output_path) dot_png) eqn:E.
  - by destruct output_path.
  - by destruct output_path.
Qed.

(** * Further theorems *)

(** X1. On a channel value in [0,255] the rewriting of lines 43-49 sets the
    least significant bit to the bit asked for and keeps the seven bits
    above it: the two branches that step back at 255 and at 0 are never
    taken, and the value stays in [0,255]. *)
Theorem write_bit_sets_lsb (v : Z) (b : bool) :
  0 <= v <= 255 ->
  write_bit v (bit_char b) = 2 * (v / 2) + Z.b2z b
  /\ 0 <= write_bit v (bit_char b) <= 255.
Proof.
  intros Hv. split; [|by apply write_bit_channel].
  rewrite (write_bit_high v (bit_char b) Hv). by destruct b.
Qed.

Lemma write_bit_sets_lsb_witness :
  write_bit 254 (bit_char true) = 2 * (254 / 2) + Z.b2z true
  /\ 0 <= write_bit 254 (bit_char true) <= 255.
Proof. apply (write_bit_sets_lsb 254 true). lia. Defined.

(** X2. On an RGB image with at least 3×(len(data)+1) pixels,
    [encrypt_image] leaves the raster that is computed group by group from
    the raster it was given: the generator, which reads the raster that the
    loop is writing, never reads a pixel that has been written. *)
Theorem encrypt_image_functional (G : Image) (data : str) :
  rgb_image G -> (3 * (length data + 1) <= width G * height G)%nat ->
  encrypt_image G data
  = Ok (mkImage (width G) (height G) (embedded (data_in_binary data) (im G))).
Proof. apply encrypt_image_embedded. Qed.

Lemma encrypt_image_functional_witness :
  encrypt_image (plain 2 3 white) (text_of_string "A")
  = Ok (mkImage 2 3 (embedded (data_in_binary (text_of_string "A"))
                              (im (plain 2 3 white)))).
Proof.
  apply (encrypt_image_functional (plain 2 3 white) (text_of_string "A"));
    [rgb_image_tac | cbn; lia].
Defined.

Lemma encrypt_image_capacity (G G' : Image) (data : str) :
  rgb_image G -> encrypt_image G data = Ok G' ->
  (3 * (length data + 1) <= width G * height G)%nat.
Proof.
  intros HG Henc.
  destruct (Nat.lt_ge_cases (width G * height G) (3 * (length data + 1)))
    as [Hlt|Hge]; [|done].
  rewrite (encrypt_image_short G data HG Hlt) in Henc. discriminate.
Qed.

(** X3. When [encrypt_image] succeeds on an RGB image, the image keeps its
    size, and every channel of every pixel keeps its seven high bits (so it
    moves by 1 at most); the blue channel of the third pixel of each group
    of three is not changed at all. *)
Theorem encrypt_image_distortion (G G' : Image) (data : str) :
  rgb_image G -> encrypt_image G data = Ok G' ->
  width G' = width G /\ height G' = height G
  /\ length (im G') = length (im G)
  /\ forall (i : nat) (p p' : pixel),
       im G !! i = Some p -> im G' !! i = Some p' ->
       length p' = length p
       /\ (forall (j : nat) (v v' : Z),
             p !! j = Some v -> p' !! j = Some v' ->
             v' / 2 = v / 2 /\ Z.abs (v' - v) <= 1)
       /\ ((i mod 3 = 2)%nat -> p' !! 2%nat = p !! 2%nat).
Proof.
  intros HG Henc.
  pose proof (encrypt_image_capacity G G' data HG Henc) as Hcap.
  rewrite (encrypt_image_embedded G data HG Hcap) in Henc.
  injection Henc as <-. cbn [width height im]. destruct HG as [_ Hrgb].
  repeat split; [by apply embedded_length|..];
    destruct (embedded_near _ _ i p p' Hrgb H H0) as [Hnear Hblue].
  - symmetry. by eapply Forall2_length.
  - by eapply (Forall2_lookup_lr _ _ _ _ _ _ Hnear).
  - pose proof (Forall2_lookup_lr _ _ _ _ _ _ Hnear H1 H2) as Hhigh.
    cbn in Hhigh. Z.div_mod_to_equations. lia.
  - done.
Qed.

Lemma encrypt_image_distortion_witness :
  width white_255 = width (plain 3 2 white)
  /\ height white_255 = height (plain 3 2 white)
  /\ length (im white_255) = length (im (plain 3 2 white))
  /\ forall (i : nat) (p p' : pixel),
       im (plain 3 2 white) !! i = Some p -> im white_255 !! i = Some p' ->
       length p' = length p
       /\ (forall (j : nat) (v v' : Z),
             p !! j = Some v -> p' !! j = Some v' ->
             v' / 2 = v / 2 /\ Z.abs (v' - v) <= 1)
       /\ ((i mod 3 = 2)%nat -> p' !! 2%nat = p !! 2%nat).
Proof.
  apply (encrypt_image_distortion (plain 3 2 white) white_255 [255%N]);
    [rgb_image_tac | reflexivity].
Defined.

(** X4. Encoding is idempotent: when [encrypt_image] has encoded a text
    into an RGB image, encoding the same text into the result changes
    nothing. *)
Theorem encrypt_image_idempotent (G G' : Image) (data : str) :
  rgb_image G -> encrypt_image G data = Ok G' ->
  encrypt_image G' data = Ok G'.
Proof.
  intros HG Henc.
  pose proof (encrypt_image_capacity G G' data HG Henc) as Hcap.
  pose proof (encrypt_image_rgb G G' data HG
                ltac:(destruct HG as [-> _]; exact Hcap) Henc) as HG'.
  rewrite (encrypt_image_embedded G data HG Hcap) in Henc.
  injection Henc as <-.
  rewrite (encrypt_image_embedded _ data HG' Hcap). cbn [width height im].
  destruct HG as [_ Hrgb]. by rewrite embedded_idem.
Qed.

Lemma encrypt_image_idempotent_witness :
  encrypt_image white_255 [255%N] = Ok white_255.
Proof.
  apply (encrypt_image_idempotent (plain 3 2 white) white_255 [255%N]);
    [rgb_image_tac | reflexivity].
Defined.

(** X5. On an RGB image [encrypt_image] fails in one way only: by the
    exception of the generator, "Image is too small to encode this
    message!", and exactly when the image has fewer than 3×(len(data)+1)
    pixels. The exception of its own loop, "Image is too small for this
    message!", and an index out of range never occur. *)
Theorem encrypt_image_failure (G : Image) (data : str) :
  rgb_image G ->
  ((width G * height G < 3 * (length data + 1))%nat ->
   encrypt_image G data
   = Raise (Exception "Image is too small to encode this message!"))
  /\ (forall e, encrypt_image G data = Raise e ->
        e = Exception "Image is too small to encode this message!"
        /\ (width G * height G < 3 * (length data + 1))%nat).
Proof.
  intros HG. split; [by apply encrypt_image_short|].
  intros e He.
  destruct (Nat.lt_ge_cases (width G * height G) (3 * (length data + 1)))
    as [Hlt|Hge].
  - rewrite (encrypt_image_short G data HG Hlt) in He. by injection He as <-.
  - rewrite (encrypt_image_embedded G data HG Hge) in He. discriminate.
Qed.

Lemma encrypt_image_failure_witness :
  ((width (plain 5 1 black) * height (plain 5 1 black)
    < 3 * (length (text_of_string "A") + 1))%nat ->
   encrypt_image (plain 5 1 black) (text_of_string "A")
   = Raise (Exception "Image is too small to encode this message!"))
  /\ (forall e, encrypt_image (plain 5 1 black) (text_of_string "A") = Raise e ->
        e = Exception "Image is too small to encode this message!"
        /\ (width (plain 5 1 black) * height (plain 5 1 black)
            < 3 * (length (text_of_string "A") + 1))%nat).
Proof.
  apply (encrypt_image_failure (plain 5 1 black) (text_of_string "A")).
  rgb_image_tac.
Defined.

(** X6. What [decode_message] returns from an RGB image is never empty, has
    no character of code 0 and none above 255, and has at most one
    character for each three pixels of the image. *)
Theorem decode_message_result (G : Image) (data : str) :
  rgb_image G -> decode_message G = Ok data ->
  data <> []
  /\ Forall (fun c => (0 < c <= 255)%N) data
  /\ (3 * length data <= width G * height G)%nat.
Proof.
  intros [Hsize Hrgb] Hdec. rewrite (decode_message_spec G Hrgb) in Hdec.
  pose proof (until_terminator_nonzero (group_chars (im G))) as Hnz.
  destruct (until_terminator_prefix (group_chars (im G))) as [rest Hrest].
  pose proof (group_chars_byte (im G)) as Hbyte.
  pose proof (group_chars_length (im G)) as Hlen.
  rewrite Hrest in Hbyte, Hlen. apply Forall_app in Hbyte as [Hbyte _].
  rewrite length_app in Hlen.
  destruct (until_terminator (group_chars (im G))) as [|c cs] eqn:E;
    [discriminate|].
  injection Hdec as <-. split; [done|]. split; [|lia].
  apply Forall_forall. intros x Hx.
  rewrite Forall_forall in Hnz, Hbyte.
  specialize (Hnz x Hx). specialize (Hbyte x Hx). cbn in Hbyte. lia.
Qed.

Lemma decode_message_result_witness :
  [255%N; 255%N] <> []
  /\ Forall (fun c => (0 < c <= 255)%N) [255%N; 255%N]
  /\ (3 * length [255%N; 255%N] <= width (plain 2 4 white) * height (plain 2 4 white))%nat.
Proof.
  apply (decode_message_result (plain 2 4 white) [255%N; 255%N]);
    [rgb_image_tac | reflexivity].
Defined.

(** X7. Once the scan has reached a terminator, nothing behind it matters:
    two RGB images that share the pixels up to the end of a group in which
    the terminator is reached decode alike, whatever their sizes and the
    pixels behind. *)
Theorem decode_ignores_rest (W H W' H' n : nat) (front tail tail' : list pixel) :
  Forall rgb (front ++ tail) -> Forall rgb (front ++ tail') ->
  length front = (3 * n)%nat -> terminator_reached front ->
  decode_message (mkImage W H (front ++ tail))
  = decode_message (mkImage W' H' (front ++ tail')).
Proof.
  intros Hrgb Hrgb' Hlen Hreached.
  rewrite (decode_message_spec (mkImage W H (front ++ tail)) Hrgb),
    (decode_message_spec (mkImage W' H' (front ++ tail')) Hrgb').
  cbn [im].
  rewrite !(group_chars_app (repeat 0%N n)) by (by rewrite repeat_length).
  by rewrite !until_terminator_reached.
Qed.

Lemma decode_ignores_rest_witness :
  decode_message (mkImage 2 3 ([white; white; white; black; black; black] ++ []))
  = decode_message
      (mkImage 3 3 ([white; white; white; black; black; black]
                    ++ [white; white; white])).
Proof.
  apply (decode_ignores_rest 2 3 3 3 2);
    [repeat (apply Forall_cons_2 || apply Forall_nil_2);
       apply rgb_intro; unfold channel; lia
    |repeat (apply Forall_cons_2 || apply Forall_nil_2);
       apply rgb_intro; unfold channel; lia
    |reflexivity
    |right; left; reflexivity].
Defined.

(** X8. The decoder reads parities only: two RGB images whose channels have
    the same parities, pixel by pixel, decode alike. *)
Theorem decode_reads_parities (G G' : Image) :
  Forall rgb (im G) -> Forall rgb (im G') ->
  Forall2 (Forall2 (fun v v' => read_bit v = read_bit v')) (im G) (im G') ->
  decode_message G = decode_message G'.
Proof.
  intros Hrgb Hrgb' Hpar.
  rewrite (decode_message_spec _ Hrgb), (decode_message_spec _ Hrgb').
  by rewrite (group_chars_parity _ _ Hpar).
Qed.

Lemma decode_reads_parities_witness :
  decode_message (plain 3 1 white) = decode_message (plain 3 1 [1; 3; 5]).
Proof.
  apply (decode_reads_parities (plain 3 1 white) (plain 3 1 [1; 3; 5]));
    [repeat (apply Forall_cons_2 || apply Forall_nil_2);
       apply rgb_intro; unfold channel; lia
    |repeat (apply Forall_cons_2 || apply Forall_nil_2);
       apply rgb_intro; unfold channel; lia
    |repeat constructor].
Defined.

Lemma map_squash_bytes (M : str) :
  Forall (fun c => (c <= 255)%N) M -> map squash M = M.
Proof.
  induction 1 as [|c M Hc _ IH]; [done|]. cbn. by rewrite squash_byte, IH.
Qed.

Lemma map_squash_fixed (M : str) :
  map squash M = M -> Forall (fun c => (c <= 255)%N) M.
Proof.
  induction M as [|c M IH]; [intros; apply Forall_nil_2|].
  intros [= Hc HM]. apply Forall_cons_2; [|by apply IH].
  rewrite <- Hc. apply squash_le.
Qed.

Lemma map_squash_nonzero (M : str) :
  Forall (fun c => c <> 0%N) M -> ~ In 0%N (map squash M).
Proof.
  induction 1 as [|c M Hc _ IH]; [by intros []|].
  intros [E|Hin]; [|by apply IH]. by apply Hc, squash_zero.
Qed.

(** X9. Encoding any text, of any characters, into an RGB image with room
    for it, and decoding the result: each character comes back as the eight
    leading bits of its code, the text stops in front of its first
    character of code 0, and when nothing is left in front of it the decoder
    raises "No hidden message found in this image!". *)
Theorem encode_decode_any_text (G : Image) (M : str) :
  rgb_image G -> (3 * (length M + 1) <= width G * height G)%nat ->
  exists G',
    encrypt_image G M = Ok G'
    /\ decode_message G'
       = match until_terminator (map squash M) with
         | [] => Raise no_message
         | data => Ok data
         end.
Proof.
  intros HG Hcap. eexists. split; [by apply encrypt_image_embedded|].
  destruct HG as [Hsize Hrgb].
  rewrite decode_message_spec by (by apply embedded_rgb). cbn [im].
  unfold data_in_binary.
  rewrite embedded_chars by (rewrite ?length_app; cbn [length]; done || lia).
  rewrite map_app. cbn [map]. rewrite <- app_assoc. cbn [app].
  change (squash 0) with 0%N. by rewrite until_terminator_app_nul.
Qed.

Lemma encode_decode_any_text_witness :
  exists G',
    encrypt_image (plain 3 3 black) [300%N; 0%N] = Ok G'
    /\ decode_message G'
       = match until_terminator (map squash [300%N; 0%N]) with
         | [] => Raise no_message
         | data => Ok data
         end.
Proof.
  apply (encode_decode_any_text (plain 3 3 black) [300%N; 0%N]);
    [rgb_image_tac | cbn; lia].
Defined.

(** X10. A character of code 0 inside the text cuts it: when the text is A,
    a character of code 0, and B, where A is not empty and has codes in
    [1,255] only, decoding the encoded image returns A, whatever B is. *)
Theorem nul_truncates (G : Image) (A B : str) :
  rgb_image G ->
  Forall (fun c => (c <= 255)%N) A -> Forall (fun c => c <> 0%N) A -> A <> [] ->
  (3 * (length (A ++ 0%N :: B) + 1) <= width G * height G)%nat ->
  exists G',
    encrypt_image G (A ++ 0%N :: B) = Ok G' /\ decode_message G' = Ok A.
Proof.
  intros HG Hbyte Hnz Hne Hcap.
  destruct (encode_decode_any_text G (A ++ 0%N :: B) HG Hcap) as (G' & Henc & Hdec).
  exists G'. split; [done|]. rewrite Hdec, map_app. cbn [map].
  change (squash 0) with 0%N.
  rewrite until_terminator_app_nul, (map_squash_bytes A Hbyte).
  rewrite until_terminator_none; [by destruct A|].
  intros Hin. rewrite Forall_forall in Hnz. apply (Hnz 0%N); [|done].
  by apply list_elem_of_In.
Qed.

Lemma nul_truncates_witness :
  exists G',
    encrypt_image (plain 3 4 black) (text_of_string "A" ++ 0%N :: text_of_string "B")
    = Ok G'
    /\ decode_message G' = Ok (text_of_string "A").
Proof.
  apply (nul_truncates (plain 3 4 black) (text_of_string "A") (text_of_string "B"));
    [rgb_image_tac | bytes_tac | bytes_tac | discriminate | cbn; lia].
Defined.

(** X11. A text without a character of code 0 comes back with every
    character of code above 255 replaced by the eight leading bits of its
    code, a code in [128,255]: a text with such a character is encoded
    without an error and is never what the decoder returns. *)
Theorem wide_characters_squashed (G : Image) (M : str) :
  rgb_image G -> Forall (fun c => c <> 0%N) M -> M <> [] ->
  (3 * (length M + 1) <= width G * height G)%nat ->
  exists G',
    encrypt_image G M = Ok G'
    /\ decode_message G' = Ok (map squash M)
    /\ Forall (fun c => (255 < c)%N -> (128 <= squash c <= 255)%N) M
    /\ (Exists (fun c => (255 < c)%N) M -> decode_message G' <> Ok M).
Proof.
  intros HG Hnz Hne Hcap.
  destruct (encode_decode_any_text G M HG Hcap) as (G' & Henc & Hdec).
  exists G'. split; [done|].
  rewrite until_terminator_none in Hdec by (by apply map_squash_nonzero).
  assert (decode_message G' = Ok (map squash M)) as Hdec'
    by (rewrite Hdec; by destruct M).
  split; [done|]. split.
  - apply Forall_forall. intros c _. apply squash_wide.
  - intros Hwide Heq. rewrite Hdec' in Heq. injection Heq as Heq.
    apply map_squash_fixed in Heq.
    apply Exists_exists in Hwide as (c & Hc & Hgt).
    rewrite Forall_forall in Heq. specialize (Heq c Hc). cbn in Heq. lia.
Qed.

Lemma wide_characters_squashed_witness :
  exists G',
    encrypt_image (plain 3 2 black) [8364%N] = Ok G'
    /\ decode_message G' = Ok (map squash [8364%N])
    /\ Forall (fun c => (255 < c)%N -> (128 <= squash c <= 255)%N) [8364%N]
    /\ (Exists (fun c => (255 < c)%N) [8364%N] -> decode_message G' <> Ok [8364%N]).
Proof.
  apply (wide_characters_squashed (plain 3 2 black) [8364%N]);
    [rgb_image_tac | bytes_tac | discriminate | cbn; lia].
Defined.

(** ** The two functions on files *)

Lemma check_ok_capacity (W H L : nat) :
  check W H L = Ok tt -> (3 * (L + 1) <= W * H)%nat.
Proof.
  intros Hcheck.
  destruct (Nat.lt_ge_cases (W * H) (3 * (L + 1))) as [Hlt|Hge]; [|done].
  rewrite (check_fails _ _ _ Hlt) in Hcheck. discriminate.
Qed.

Lemma mem_save_open (fs fs1 : list (str * Image)) (path : str) (image : Image) :
  mem_save fs path image = Ok fs1 ->
  mem_exists fs1 path = true /\ mem_open fs1 path = Ok image.
Proof.
  intros [= <-]. unfold mem_exists, mem_open, mem_lookup. cbn [find fst].
  rewrite (bool_decide_eq_true_2 (path = path) eq_refl). by cbn.
Qed.

Section FileTheorems.
Variable FS : Type.
Variable path_exists : FS -> str -> bool.
Variable open_rgb : FS -> str -> result Image.
Variable save_png : FS -> str -> Image -> result FS.

(** What a successful call of [encode_message] has done. *)
Lemma encode_message_file_ok (fs fs' : FS) (img_path text output_path out : str) :
  encode_message_file FS path_exists open_rgb save_png
                      fs img_path text output_path = Ok (out, fs') ->
  exists image new_image,
    text <> [] /\ open_rgb fs img_path = Ok image
    /\ (3 * (length text + 1) <= width image * height image)%nat
    /\ encrypt_image image text = Ok new_image
    /\ save_png fs (png_path output_path) new_image = Ok fs'
    /\ out = png_path output_path.
Proof.
  unfold encode_message_file.
  destruct img_path as [|? ?], text as [|c text], output_path as [|? ?];
    try discriminate.
  destruct (path_exists fs _); [|discriminate].
  destruct (open_rgb fs _) as [image|]; [|discriminate]. cbn [bind].
  destruct (check _ _ _) as [[]|] eqn:Hcheck; [|discriminate]. cbn [bind].
  destruct (encrypt_image image _) as [new_image|] eqn:Henc; [|discriminate].
  cbn [bind].
  destruct (save_png fs _ new_image) as [fs1|] eqn:Hsave; [|discriminate].
  cbn [bind]. intros [= <- <-].
  exists image, new_image. repeat split; try done.
  by apply check_ok_capacity.
Qed.

(** X12. The path that [encode_message] returns, and under which it has
    saved the image, ends with ".png" in some letter case: it is the
    output path given when that ends so already, and the output path with
    ".png" behind it otherwise; given as the output path again it is
    kept. *)
Theorem encode_message_file_path (fs fs' : FS)
    (img_path text output_path out : str) :
  encode_message_file FS path_exists open_rgb save_png
                      fs img_path text output_path = Ok (out, fs') ->
  endswith (lower out) dot_png = true
  /\ (if endswith (lower output_path) dot_png
      then out = output_path else out = output_path ++ dot_png)
  /\ png_path out = out.
Proof.
  intros (image & new_image & _ & _ & _ & _ & _ & ->)%encode_message_file_ok.
  split; [apply png_path_ends|]. split; [|apply png_path_idem].
  unfold png_path. by destruct (endswith (lower output_path) dot_png).
Qed.

(** X13. Round trip through the files: when saving an image makes a file
    that exists and that opens as that image, and the input file opens as
    an RGB image, then after a successful [encode_message] of a text with
    codes in [1,255], [decode_message] on the path returned yields the
    text. *)
Theorem file_round_trip (fs fs' : FS) (img_path text output_path out : str) :
  (forall image, open_rgb fs img_path = Ok image -> rgb_image image) ->
  (forall image fs1,
     save_png fs (png_path output_path) image = Ok fs1 ->
     path_exists fs1 (png_path output_path) = true
     /\ open_rgb fs1 (png_path output_path) = Ok image) ->
  Forall (fun c => (c <= 255)%N) text -> Forall (fun c => c <> 0%N) text ->
  encode_message_file FS path_exists open_rgb save_png
                      fs img_path text output_path = Ok (out, fs') ->
  decode_message_file FS path_exists open_rgb fs' out = Ok text.
Proof.
  intros Hopen Hsave Hbyte Hnz
    (image & new_image & Hne & Himage & Hcap & Henc & Hsaved & ->)%encode_message_file_ok.
  destruct (Hsave _ _ Hsaved) as [Hexists Hopened].
  pose proof (Hopen _ Himage) as Hrgb.
  assert (3 * (length text + 1) <= length (im image))%nat as Hcap'
    by (destruct Hrgb as [-> _]; done).
  destruct (decode_encrypted image text Hrgb Hbyte Hnz Hcap')
    as (G' & Henc' & Hdec).
  rewrite Henc in Henc'. injection Henc' as <-.
  unfold decode_message_file.
  pose proof (png_path_nonempty output_path) as Hout.
  destruct (png_path output_path) as [|c out] eqn:E; [done|].
  rewrite Hexists, Hopened. cbn [bind]. rewrite Hdec. by destruct text.
Qed.
End FileTheorems.

Lemma encode_message_file_path_witness :
  endswith (lower (text_of_string "out.png")) dot_png = true
  /\ (if endswith (lower (text_of_string "out")) dot_png
      then text_of_string "out.png" = text_of_string "out"
      else text_of_string "out.png" = text_of_string "out" ++ dot_png)
  /\ png_path (text_of_string "out.png") = text_of_string "out.png".
Proof.
  apply (encode_message_file_path _ mem_exists mem_open mem_save
           [(text_of_string "in.png", plain 3 3 black)]
           [(text_of_string "out.png", mkImage 3 3
               [[0; 1; 0]; [0; 1; 0]; [0; 0; 0]; [0; 1; 1]; [0; 1; 0]; [0; 1; 0];
                black; black; black]);
            (text_of_string "in.png", plain 3 3 black)]
           (text_of_string "in.png") (text_of_string "Hi") (text_of_string "out")).
  reflexivity.
Defined.

Lemma file_round_trip_witness :
  decode_message_file _ mem_exists mem_open
    [(text_of_string "out.png", mkImage 3 3
        [[0; 1; 0]; [0; 1; 0]; [0; 0; 0]; [0; 1; 1]; [0; 1; 0]; [0; 1; 0];
         black; black; black]);
     (text_of_string "in.png", plain 3 3 black)]
    (text_of_string "out.png")
  = Ok (text_of_string "Hi").
Proof.
  apply (file_round_trip _ mem_exists mem_open mem_save
           [(text_of_string "in.png", plain 3 3 black)] _
           (text_of_string "in.png") (text_of_string "Hi") (text_of_string "out")).
  - intros image [= <-]. rgb_image_tac.
  - intros image fs1. apply mem_save_open.
  - bytes_tac.
  - bytes_tac.
  - reflexivity.
Defined.
